(** * InvisioVault: the steganography engine and the extraction worker

    A shallow embedding of [src/invisiovault.py]: the [SteganographyEngine]
    static methods (key derivation, the encrypted envelope, the file record,
    the capacity rule, the LSB embed and extract passes) and the unpacking
    loop of [WorkerThread._extract_files].

    Conventions.
    - A Python [bytes] value is a [list Z] of values in [0, 256).
    - Python integers that count or index (lengths, offsets, loop counters)
      are [nat]; values that are bit-manipulated are [Z].
    - A raised exception is the [Raise] case of [result]; a [try/except]
      is a [match] on it.
    - The numpy array [pixels] of shape (height, width, 3) is its shape and
      its C-ordered buffer; [pixels[i, j, k]] is position
      [(i * width + j) * 3 + k] of the buffer. *)

From Stdlib Require Import ZArith Lia.
From stdpp Require Import base tactics option list strings gmap pretty.

#[global] Set Warnings "-clear-no-such-hyp".

Abbreviation bytes := (list Z).

(** ** Exceptions *)

Inductive exn : Type :=
  | ValueError (msg : string)
  | OverflowError
  | ZeroDivisionError
  | UnicodeDecodeError
  | JSONDecodeError
  | KeyError
  | TypeError
  | OSError.

#[global] Instance exn_eq_dec : EqDecision exn.
Proof. solve_decision. Defined.

Inductive result (A : Type) : Type :=
  | Ok (a : A)
  | Raise (e : exn).
Arguments Ok {A} a.
Arguments Raise {A} e.

(** [except ValueError] also catches the subclasses of [ValueError]. *)
Definition is_ValueError (e : exn) : bool :=
  match e with
  | ValueError _ | UnicodeDecodeError | JSONDecodeError => true
  | _ => false
  end.

(** The error monad, with stdpp's [x ← r; k] notation. *)
#[global] Instance result_ret : MRet result := fun A a => Ok a.
#[global] Instance result_bind : MBind result := fun A B k r =>
  match r with
  | Ok a => k a
  | Raise e => Raise e
  end.

(** ** Integers and byte strings *)

Definition byte_ok (b : Z) : bool := ((0 <=? b) && (b <? 256))%Z.
Definition bytes_ok (bs : bytes) : bool := forallb byte_ok bs.

(** [n.to_bytes(4, byteorder='big')]; raises [OverflowError] when [n] does
    not fit in four bytes. *)
Definition to_bytes4 (n : nat) : result bytes :=
  let z := Z.of_nat n in
  if (z <? 2 ^ 32)%Z then
    Ok [ (z / 2 ^ 24) mod 256; (z / 2 ^ 16) mod 256;
         (z / 2 ^ 8) mod 256; z mod 256 ]%Z
  else Raise OverflowError.

(** [int.from_bytes(bs, byteorder='big')], for any number of bytes. *)
Definition from_bytes (bs : bytes) : nat :=
  Z.to_nat (foldl (fun acc b => acc * 256 + b)%Z 0%Z bs).

(** The slice [data[lo:hi]] for [0 <= lo]; it is clipped to the buffer. *)
Definition slice {A} (data : list A) (lo hi : nat) : list A :=
  take (hi - lo) (drop lo data).

(** [data.startswith(prefix)] *)
Fixpoint startswith (data prefix : bytes) {struct prefix} : bool :=
  match prefix, data with
  | [], _ => true
  | p :: prefix', d :: data' => (d =? p)%Z && startswith data' prefix'
  | _ :: _, [] => false
  end.

(** ** The LSB codec *)

Module LSB.

(** The pixel array after [np.array(img)] on an RGB image. *)
Record ndarray : Type := mk_ndarray {
  shape0 : nat;      (* height: number of rows *)
  shape1 : nat;      (* width: number of columns *)
  buf : list Z       (* rows, then columns, then the three channels *)
}.

Definition chan (w i j k : nat) : nat := (i * w + j) * 3 + k.

(** A well-formed array: the buffer has one uint8 per channel. *)
Definition wf (px : ndarray) : Prop :=
  length (buf px) = shape0 px * shape1 px * 3 /\ bytes_ok (buf px) = true.

(** [can_hide_data]: the image holds [max_bytes = (width * height * 3) // 8]
    bytes and four of them are reserved for the size. *)
Definition max_bytes (px : ndarray) : nat := (shape1 px * shape0 px * 3) / 8.

Definition can_hide_data (px : ndarray) (data_size : nat) : bool :=
  data_size + 4 <=? max_bytes px.

(** [for i in range(8): bits.append((byte >> i) & 1)] *)
Definition byte_bits (byte : Z) : list Z :=
  (fun i => Z.land (Z.shiftr byte (Z.of_nat i)) 1) <$> seq 0 8.

Definition to_bits (full_data : bytes) : list Z :=
  full_data ≫= byte_bits.

(** [while len(bits) % 3 != 0: bits.append(0)]: two turns at most, so the
    fuel 3 of the call is not used up (see [LSBFacts.pad_bits_spec]). *)
Fixpoint pad_bits (fuel : nat) (bits : list Z) : list Z :=
  match fuel with
  | 0 => bits
  | S fuel' =>
      if length bits mod 3 =? 0 then bits else pad_bits fuel' (bits ++ [0%Z])
  end.

(** The body of the pixel loop when [idx < len(bits)]: the channels
    [k in range(min(3, len(bits) - idx))] get bit [idx + k], then
    [idx += 3]. *)
Definition hide_pixel (w : nat) (bits : list Z) (i j : nat)
    (st : list Z * nat) : list Z * nat :=
  let '(pixels, idx) := st in
  let pixels :=
    foldl (fun px k =>
             <[chan w i j k :=
                 Z.lor (Z.land (px !!! chan w i j k) 254) (bits !!! (idx + k))]> px)
          pixels (seq 0 (3 `min` (length bits - idx))) in
  (pixels, idx + 3).

(** [for j in range(pixels.shape[1])], with its [else: break]. *)
Fixpoint hide_cols (w : nat) (bits : list Z) (i : nat) (js : list nat)
    (st : list Z * nat) : list Z * nat :=
  match js with
  | [] => st
  | j :: js' =>
      if st.2 <? length bits
      then hide_cols w bits i js' (hide_pixel w bits i j st)
      else st
  end.

(** [for i in range(pixels.shape[0])], leaving when [idx >= len(bits)]. *)
Fixpoint hide_rows (w : nat) (bits : list Z) (rows : list nat)
    (st : list Z * nat) : list Z * nat :=
  match rows with
  | [] => st
  | i :: rows' =>
      let st' := hide_cols w bits i (seq 0 w) st in
      if length bits <=? st'.2 then st' else hide_rows w bits rows' st'
  end.

(** [hide_data_in_image]: [Some] of the saved pixel array when the method
    returns [True], [None] when it returns [False] (too small an image, or
    an exception, which the method catches). Saving and reloading the
    image is taken to be lossless. *)
Definition hide_data_in_image (px : ndarray) (data : bytes) : option ndarray :=
  match to_bytes4 (length data) with
  | Raise _ => None
  | Ok data_size =>
      let full_data := data_size ++ data in
      if negb (can_hide_data px (length full_data)) then None
      else
        let bits := pad_bits 3 (to_bits full_data) in
        let '(pixels, _) :=
          hide_rows (shape1 px) bits (seq 0 (shape0 px)) (buf px, 0) in
        Some (mk_ndarray (shape0 px) (shape1 px) pixels)
  end.

(** *** Extraction *)

(** [for k in range(3): extracted_bits.append(int(pixels[i, j, k] & 1))] *)
Definition read_pixel (w : nat) (pixels : list Z) (i j : nat)
    (extracted_bits : list Z) : list Z :=
  foldl (fun acc k => acc ++ [Z.land (pixels !!! chan w i j k) 1])
        extracted_bits (seq 0 3).

(** The first scan: whole pixels are read until 32 bits are there. *)
Fixpoint size_cols (w : nat) (pixels : list Z) (i : nat) (cols : list nat)
    (extracted_bits : list Z) : list Z :=
  match cols with
  | [] => extracted_bits
  | j :: cols' =>
      let extracted_bits := read_pixel w pixels i j extracted_bits in
      if 32 <=? length extracted_bits then extracted_bits
      else size_cols w pixels i cols' extracted_bits
  end.

Fixpoint size_rows (w : nat) (pixels : list Z) (rows : list nat)
    (extracted_bits : list Z) : list Z :=
  match rows with
  | [] => extracted_bits
  | i :: rows' =>
      let extracted_bits := size_cols w pixels i (seq 0 w) extracted_bits in
      if 32 <=? length extracted_bits then extracted_bits
      else size_rows w pixels rows' extracted_bits
  end.

(** One byte of the size: [byte |= size_bits[i + j] << j] for the [j] with
    [i + j < len(size_bits)]. *)
Definition size_byte (size_bits : list Z) (i : nat) : Z :=
  foldl (fun byte j =>
           if i + j <? length size_bits
           then Z.lor byte (Z.shiftl (size_bits !!! (i + j)) (Z.of_nat j))
           else byte)
        0%Z (seq 0 8).

(** [for i in range(0, 32, 8)] *)
Definition size_bytes (size_bits : list Z) : bytes :=
  size_byte size_bits <$> [0; 8; 16; 24].

(** The second scan, [while len(extracted_bits) < total_bits_needed]: the
    pixel is recomputed from the running bit count on every turn. [None]
    when the fuel is used up; an empty row raises in the division. *)
Fixpoint read_rest (fuel : nat) (px : ndarray) (total_bits_needed : nat)
    (extracted_bits : list Z) : option (result (list Z)) :=
  if total_bits_needed <=? length extracted_bits then Some (Ok extracted_bits)
  else
    match fuel with
    | 0 => None
    | S fuel' =>
        if shape1 px =? 0 then Some (Raise ZeroDivisionError)
        else
          let i := (length extracted_bits / 3) / shape1 px in
          let j := (length extracted_bits / 3) mod shape1 px in
          if shape0 px <=? i then Some (Ok extracted_bits)
          else
            read_rest fuel' px total_bits_needed
              (foldl (fun acc k =>
                        if length acc <? total_bits_needed
                        then acc ++ [Z.land (buf px !!! chan (shape1 px) i j k) 1]
                        else acc)
                     extracted_bits (seq 0 3))
    end.

(** One byte of the data: [byte |= data_bits[i + j] << j]. *)
Definition data_byte (data_bits : list Z) (i : nat) : Z :=
  foldl (fun byte j =>
           Z.lor byte (Z.shiftl (data_bits !!! (i + j)) (Z.of_nat j)))
        0%Z (seq 0 8).

(** [range(0, n, 8)] *)
Definition range8 (n : nat) : list nat :=
  (fun q => 8 * q) <$> seq 0 ((n + 7) / 8).

(** [for i in range(0, len(data_bits), 8): if i + 8 <= len(data_bits): ...] *)
Definition data_bytes (data_bits : list Z) : bytes :=
  foldl (fun acc i =>
           if i + 8 <=? length data_bits
           then acc ++ [data_byte data_bits i]
           else acc)
        [] (range8 (length data_bits)).

(** The body of the [try] of [extract_data_from_image]. *)
Definition extract_body (fuel : nat) (px : ndarray) : option (result bytes) :=
  let extracted_bits :=
    size_rows (shape1 px) (buf px) (seq 0 (shape0 px)) [] in
  let size_bits := take 32 extracted_bits in
  let data_size := from_bytes (size_bytes size_bits) in
  let total_bits_needed := 32 + data_size * 8 in
  match read_rest fuel px total_bits_needed extracted_bits with
  | None => None
  | Some (Raise e) => Some (Raise e)
  | Some (Ok extracted_bits) =>
      let data_bits := slice extracted_bits 32 total_bits_needed in
      Some (Ok (data_bytes data_bits))
  end.

(** [extract_data_from_image]: any exception is caught and [b''] is
    returned. The second scan reads at least one new pixel per turn or
    ends, so one unit of fuel per pixel and one more is enough
    (see [LSBClaims.extract_data_from_image_total]). *)
Definition extract_data_from_image (px : ndarray) : option bytes :=
  match extract_body (S (shape0 px * shape1 px)) px with
  | None => None
  | Some (Ok data) => Some data
  | Some (Raise _) => Some []
  end.

End LSB.

(** ** The encrypted envelope *)

(** [ENCRYPTION_HEADER = b"INVISIOVAULT"] *)
Definition ENCRYPTION_HEADER : bytes :=
  [73; 78; 86; 73; 83; 73; 79; 86; 65; 85; 76; 84]%Z.

(** PKCS#7 padding, as [Crypto.Util.Padding.pad] and [unpad] do it for the
    block size 16 of AES. *)
Module Padding.

Definition block_size : nat := 16.

Definition pad (data_to_pad : bytes) : bytes :=
  let padding_len := block_size - length data_to_pad mod block_size in
  data_to_pad ++ replicate padding_len (Z.of_nat padding_len).

Definition unpad (padded_data : bytes) : result bytes :=
  let pdata_len := length padded_data in
  if pdata_len =? 0
  then Raise (ValueError "Zero-length input cannot be unpadded")
  else if negb (pdata_len mod block_size =? 0)
  then Raise (ValueError "Input data is not padded")
  else
    let padding_len := Z.to_nat (padded_data !!! (pdata_len - 1)) in
    if (padding_len <? 1) || (block_size `min` pdata_len <? padding_len)
    then Raise (ValueError "Padding is incorrect.")
    else if negb (bool_decide
                    (drop (pdata_len - padding_len) padded_data
                     = replicate padding_len (Z.of_nat padding_len)))
    then Raise (ValueError "PKCS#7 padding is incorrect.")
    else Ok (take (pdata_len - padding_len) padded_data).

End Padding.

(** The library calls of the envelope are parameters: the key derivation
    [hashlib.pbkdf2_hmac('sha256', password.encode(), salt, 100000)], the
    cipher object [AES.new(key, AES.MODE_CBC, iv)] and its [encrypt] and
    [decrypt]. The random bytes of [os.urandom(16)] are arguments. *)
Section Envelope.
Context {cipher : Type}.
Variable pbkdf2_hmac : string -> bytes -> bytes.
Variable AES_new : bytes -> bytes -> result cipher.
Variable encrypt : cipher -> bytes -> result bytes.
Variable decrypt : cipher -> bytes -> result bytes.

(** [derive_key], with the salt given. *)
Definition derive_key (password : string) (salt : bytes) : bytes * bytes :=
  (pbkdf2_hmac password salt, salt).

(** [encrypt_data], with [salt] and [iv] the two draws of
    [os.urandom(16)]. *)
Definition encrypt_data (salt iv : bytes) (data : bytes) (password : string)
    : result bytes :=
  let '(key, _) := derive_key password salt in
  cipher ← AES_new key iv;
  encrypted_data ← encrypt cipher (Padding.pad data);
  mret (ENCRYPTION_HEADER ++ salt ++ iv ++ encrypted_data).

(** [decrypt_data]: a [ValueError] or [KeyError] of [decrypt] or [unpad] is
    raised again as the one [ValueError] of the [except] clause. *)
Definition decrypt_data (encrypted_data : bytes) (password : string)
    : result bytes :=
  if negb (startswith encrypted_data ENCRYPTION_HEADER)
  then Raise (ValueError "Invalid data format")
  else
    let data := drop (length ENCRYPTION_HEADER) encrypted_data in
    let salt := take 16 data in
    let iv := slice data 16 32 in
    let actual_encrypted_data := drop 32 data in
    let '(key, _) := derive_key password salt in
    cipher ← AES_new key iv;
    match decrypt cipher actual_encrypted_data ≫= Padding.unpad with
    | Ok decrypted_data => Ok decrypted_data
    | Raise e =>
        if is_ValueError e || bool_decide (e = KeyError)
        then Raise (ValueError "Incorrect password or corrupted data")
        else Raise e
    end.
End Envelope.

(** ** File records, the archive and the extraction worker *)

(** What [json.loads] returns. A dict is the list of its items, a float
    is kept as its text. *)
#[local] Unset Elimination Schemes.
Inductive json : Type :=
  | JNull
  | JBool (b : bool)
  | JInt (n : Z)
  | JFloat (repr : string)
  | JStr (s : string)
  | JList (l : list json)
  | JDict (items : list (string * json)).
#[local] Set Elimination Schemes.

(** The signals of [WorkerThread] that the unpacking emits. The status
    lines are kept by kind, with the values their text is formatted from.
    The progress signal, a percentage computed in floating point, is left
    out. *)
Inductive status : Type :=
  | Found_hidden_files (num_files : nat)
  | Extracted (name : string)
  | Error_extracting_file (number : nat) (e : exn)
  | Successfully_extracted (n : nat).

Inductive signal : Type :=
  | status_signal (s : status)
  | finished_signal (success : bool) (message : string).

(** The state the worker acts on: the file system (the paths that exist,
    with the content of the files), the list [extracted_files] and the
    signals emitted so far, oldest first. *)
Record worker : Type := mk_worker {
  fs : gmap string bytes;
  extracted_files : list string;
  signals : list signal
}.

(** ["\n"] *)
Definition newline : string :=
  String (Ascii.Ascii false true false true false false false false) "".

Definition emit (sig : signal) (st : worker) : worker :=
  mk_worker (fs st) (extracted_files st) (signals st ++ [sig]).

(** [os.path.exists] *)
Definition path_exists (st : worker) (file_path : string) : bool :=
  bool_decide (is_Some (fs st !! file_path)).

(** The library calls are parameters: [json.dumps(metadata).encode()] and
    [json.loads(metadata_bytes.decode())]; [os.path.join], [os.path.splitext]
    and [os.path.basename]; and whether [open(file_path, 'wb')] can create
    a file at a path that does not exist (its directory is there and can be
    written to), which no step of the run changes. *)
Section Worker.
Variable dumps : json -> bytes.
Variable loads : bytes -> result json.
Variable path_join : string -> string -> string.
Variable splitext : string -> string * string.
Variable basename : string -> string.
Variable creatable : string -> bool.

(** The metadata dict of [prepare_file_data]. *)
Definition metadata_of (filename : string) (size : nat) (timestamp : string)
    : json :=
  JDict [("filename", JStr filename); ("size", JInt (Z.of_nat size));
         ("timestamp", JStr timestamp)].

(** [prepare_file_data(file_path, None)], for the file of base name
    [filename] and content [file_data], prepared at time [timestamp]. *)
Definition prepare_file_data (filename timestamp : string) (file_data : bytes)
    : result bytes :=
  let metadata := metadata_of filename (length file_data) timestamp in
  let metadata_bytes := dumps metadata in
  metadata_length ← to_bytes4 (length metadata_bytes);
  mret (metadata_length ++ metadata_bytes ++ file_data).

(** [extract_file_data(data, None)]: without a password nothing is
    decrypted. Only the [JSONDecodeError] is turned into the [ValueError]. *)
Definition extract_file_data (data : bytes) : result (json * bytes) :=
  let metadata_length := from_bytes (take 4 data) in
  let metadata_bytes := slice data 4 (4 + metadata_length) in
  let file_data := drop (4 + metadata_length) data in
  match loads metadata_bytes with
  | Ok metadata => Ok (metadata, file_data)
  | Raise JSONDecodeError => Raise (ValueError "Invalid metadata format")
  | Raise e => Raise e
  end.

(** [size = len(data).to_bytes(4, byteorder='big')] and
    [combined_data += size + data] *)
Definition pack_step (combined_data : result bytes) (data : bytes)
    : result bytes :=
  combined_data ← combined_data;
  size ← to_bytes4 (length data);
  mret (combined_data ++ size ++ data).

(** The archive of [_hide_files]: the count, then every record after its
    size. *)
Definition pack_files (all_files_data : list bytes) : result bytes :=
  combined_data ← to_bytes4 (length all_files_data);
  foldl pack_step (Ok combined_data) all_files_data.

(** [metadata["filename"]], as an argument of [os.path.join]. *)
Definition filename_of (metadata : json) : result string :=
  match metadata with
  | JDict items =>
      match list_find (fun item => item.1 = "filename") items with
      | Some (_, (_, JStr filename)) => Ok filename
      | Some _ => Raise TypeError
      | None => Raise KeyError
      end
  | _ => Raise TypeError
  end.

(** [f"{base}_{counter}{ext}"] *)
Definition numbered (base ext : string) (counter : nat) : string :=
  base +:+ "_" +:+ pretty counter +:+ ext.

(** [while os.path.exists(file_path)]: the next numbered name is tried.
    [None] when the fuel is used up. *)
Fixpoint unique_path (fuel : nat) (st : worker) (base ext file_path : string)
    (counter : nat) : option string :=
  if path_exists st file_path then
    match fuel with
    | 0 => None
    | S fuel' =>
        unique_path fuel' st base ext (numbered base ext counter) (S counter)
    end
  else Some file_path.

(** The rest of the [try] block, from the metadata and the content of a
    record: the file is written under a name that is not taken. The loop
    on the names ends within one turn per existing path, and one more
    (see [save_file_total]). *)
Definition save_file (output_dir : string) (metadata : json) (content : bytes)
    (st : worker) : option (result worker) :=
  match filename_of metadata with
  | Raise e => Some (Raise e)
  | Ok filename =>
      let file_path := path_join output_dir filename in
      let '(base, ext) := splitext file_path in
      match unique_path (S (size (fs st))) st base ext file_path 1 with
      | None => None
      | Some file_path =>
          if creatable file_path then
            Some (Ok (emit (status_signal (Extracted (basename file_path)))
                        (mk_worker (<[file_path := content]> (fs st))
                                   (extracted_files st ++ [file_path])
                                   (signals st))))
          else Some (Raise OSError)
      end
  end.

(** The [try ... except Exception] of the loop body on the record
    [file_data] of index [i]. *)
Definition extract_record (output_dir : string) (i : nat) (file_data : bytes)
    (st : worker) : option worker :=
  match extract_file_data file_data with
  | Raise e =>
      Some (emit (status_signal (Error_extracting_file (i + 1) e)) st)
  | Ok (metadata, content) =>
      match save_file output_dir metadata content st with
      | None => None
      | Some (Ok st') => Some st'
      | Some (Raise e) =>
          Some (emit (status_signal (Error_extracting_file (i + 1) e)) st)
      end
  end.

(** [for i in range(num_files)], with its [break] when the offset is at
    or past the end of the data. *)
Fixpoint unpack_loop (output_dir : string) (data : bytes) (indices : list nat)
    (offset : nat) (st : worker) : option worker :=
  match indices with
  | [] => Some st
  | i :: indices' =>
      if length data <=? offset then Some st
      else
        let file_size := from_bytes (slice data offset (offset + 4)) in
        let offset := offset + 4 in
        let file_data := slice data offset (offset + file_size) in
        let offset := offset + file_size in
        st ← extract_record output_dir i file_data st;
        unpack_loop output_dir data indices' offset st
  end.

(** [_extract_files] from "Extract files from data" on, with [data] the
    bytes read from the image, decrypted if they were encrypted. *)
Definition unpack_files (output_dir : string) (data : bytes) (st : worker)
    : option worker :=
  let num_files := from_bytes (take 4 data) in
  let st := emit (status_signal (Found_hidden_files num_files)) st in
  st ← unpack_loop output_dir data (seq 0 num_files) 4 st;
  let st :=
    emit (status_signal
            (Successfully_extracted (length (extracted_files st)))) st in
  Some (emit (finished_signal true
                (String.concat newline (extracted_files st))) st).

End Worker.

(** ** The two runs of the worker *)

(** A run that emits signals and may raise: the signals emitted, oldest
    first, and the value or the exception. The signals emitted before an
    exception are kept. *)
Definition logged (S A : Type) : Type := list S * result A.

#[global] Instance logged_ret {S} : MRet (logged S) := fun A a => ([], Ok a).
#[global] Instance logged_bind {S} : MBind (logged S) := fun A B k m =>
  match m with
  | (sigs, Ok a) => let '(sigs', r) := k a in (sigs ++ sigs', r)
  | (sigs, Raise e) => (sigs, Raise e)
  end.

Definition log {S} (sig : S) : logged S unit := ([sig], Ok tt).
Definition lift {S A} (r : result A) : logged S A := ([], r).

(** [if password:] a password that is [None] or the empty string is none. *)
Definition truthy (password : option string) : option string :=
  match password with
  | Some (String a s) => Some (String a s)
  | _ => None
  end.

(** [open(file_path, 'rb').read()] *)
Definition read_file (files : gmap string bytes) (file_path : string)
    : result bytes :=
  match files !! file_path with
  | Some file_data => Ok file_data
  | None => Raise OSError
  end.

(** The status lines and the end of [_hide_files], by kind. *)
Inductive hide_status : Type :=
  | Preparing_file (number total : nat) (name : string)
  | Encrypting_data
  | Hiding_data_in_image
  | Files_successfully_hidden
  | Failed_to_hide_files
  | Hide_error (e : exn).

Inductive hide_signal : Type :=
  | hide_status_signal (s : hide_status)
  | hide_finished_hidden (output_path : string)  (* (True, output_path) *)
  | hide_finished_failed                         (* (False, "Operation failed") *)
  | hide_finished_error (e : exn).               (* (False, str(e)) *)

(** The status lines and the end of [_extract_files] before and around the
    unpacking; [unpack_signal] is a signal of the unpacking. *)
Inductive extract_signal : Type :=
  | Extracting_data_from_image
  | Decrypting_data
  | Extract_error (e : exn)
  | extract_finished_error (e : exn)             (* (False, str(e)) *)
  | unpack_signal (sig : signal).

Section Runs.
Context {cipher : Type}.
Variable pbkdf2_hmac : string -> bytes -> bytes.
Variable AES_new : bytes -> bytes -> result cipher.
Variable encrypt : cipher -> bytes -> result bytes.
Variable decrypt : cipher -> bytes -> result bytes.
Variable dumps : json -> bytes.
Variable loads : bytes -> result json.
Variable path_join : string -> string -> string.
Variable splitext : string -> string * string.
Variable basename : string -> string.
Variable creatable : string -> bool.

(** [prepare_file_data(file_path, password)] with its two arguments: the
    file is read from [files], [timestamp] is the time of the call, and
    [salt] and [iv] are the random draws of [encrypt_data], which are used
    with a password only. *)
Definition prepare_file_data_pw (files : gmap string bytes)
    (timestamp : string) (salt iv : bytes) (file_path : string)
    (password : option string) : result bytes :=
  file_data ← read_file files file_path;
  combined_data ←
    prepare_file_data dumps (basename file_path) timestamp file_data;
  match truthy password with
  | Some password =>
      encrypt_data pbkdf2_hmac AES_new encrypt salt iv combined_data password
  | None => mret combined_data
  end.

(** [try: data = decrypt_data(data, password)] and
    [except ValueError: raise ValueError(...)] *)
Definition decrypt_or_incorrect (data : bytes) (password : string)
    : result bytes :=
  match decrypt_data pbkdf2_hmac AES_new decrypt data password with
  | Ok data => Ok data
  | Raise e =>
      if is_ValueError e
      then Raise (ValueError "Incorrect password or corrupted data")
      else Raise e
  end.

(** [extract_file_data(data, password)] with its two arguments. *)
Definition extract_file_data_pw (data : bytes) (password : option string)
    : result (json * bytes) :=
  data ←
    match truthy password with
    | Some password =>
        if startswith data ENCRYPTION_HEADER
        then decrypt_or_incorrect data password
        else Ok data
    | None => Ok data
    end;
  extract_file_data loads data.

(** [for i, file_path in enumerate(files)] of [_hide_files]; [now i] is
    the time when the file of index [i] is prepared. *)
Fixpoint prepare_files (files : gmap string bytes) (now : nat -> string)
    (total i : nat) (file_paths : list string) (all_files_data : list bytes)
    : logged hide_signal (list bytes) :=
  match file_paths with
  | [] => mret all_files_data
  | file_path :: file_paths' =>
      _ ← log (hide_status_signal
                 (Preparing_file (i + 1) total (basename file_path)));
      file_data ← lift (prepare_file_data_pw files (now i) [] [] file_path None);
      prepare_files files now total (S i) file_paths'
        (all_files_data ++ [file_data])
  end.

(** The body of the [try] of [_hide_files]: the value is what
    [hide_data_in_image] returns, the saved pixel array or [None] for
    [False]. *)
Definition hide_files_try (px : LSB.ndarray) (file_paths : list string)
    (password : option string) (files : gmap string bytes)
    (now : nat -> string) (salt iv : bytes)
    : logged hide_signal (option LSB.ndarray) :=
  all_files_data ← prepare_files files now (length file_paths) 0 file_paths [];
  combined_data ← lift (pack_files all_files_data);
  combined_data ←
    match truthy password with
    | Some password =>
        _ ← log (hide_status_signal Encrypting_data);
        lift (encrypt_data pbkdf2_hmac AES_new encrypt salt iv
                combined_data password)
    | None => mret combined_data
    end;
  _ ← (if negb (LSB.can_hide_data px (length combined_data))
       then lift (Raise (ValueError
                    "The selected image is too small to hide all the data"))
       else mret tt);
  _ ← log (hide_status_signal Hiding_data_in_image);
  mret (LSB.hide_data_in_image px combined_data).

(** [_hide_files]: the signals of the run and the image that is saved at
    [output_path], if one is. The progress signals are left out. *)
Definition _hide_files (px : LSB.ndarray) (output_path : string)
    (file_paths : list string) (password : option string)
    (files : gmap string bytes) (now : nat -> string) (salt iv : bytes)
    : list hide_signal * option LSB.ndarray :=
  match hide_files_try px file_paths password files now salt iv with
  | (sigs, Ok (Some saved)) =>
      (sigs ++ [hide_status_signal Files_successfully_hidden;
                hide_finished_hidden output_path], Some saved)
  | (sigs, Ok None) =>
      (sigs ++ [hide_status_signal Failed_to_hide_files;
                hide_finished_failed], None)
  | (sigs, Raise e) =>
      (sigs ++ [hide_status_signal (Hide_error e); hide_finished_error e],
       None)
  end.

(** The body of the [try] of [_extract_files] up to the unpacking: the
    bytes to unpack. [data] is what [extract_data_from_image] returned. *)
Definition extract_files_try (data : bytes) (password : option string)
    : logged extract_signal bytes :=
  _ ← (if bool_decide (data = [])
       then lift (Raise (ValueError "No hidden data found in the image"))
       else mret tt);
  if startswith data ENCRYPTION_HEADER then
    match truthy password with
    | None =>
        lift (Raise (ValueError
          "This image contains encrypted data. Please provide a password."))
    | Some password =>
        _ ← log Decrypting_data;
        lift (decrypt_or_incorrect data password)
    end
  else mret data.

(** [_extract_files]: the signals of the run and the state of the worker
    after it, from the pixel array of the image and the paths [exist] of
    the file system. [None] only if [extract_data_from_image] or the
    unpacking ran out of fuel, which they do not. *)
Definition _extract_files (px : LSB.ndarray) (output_dir : string)
    (password : option string) (exist : gmap string bytes)
    : option (list extract_signal * worker) :=
  let st := mk_worker exist [] [] in
  data ← LSB.extract_data_from_image px;
  match extract_files_try data password with
  | (sigs, Raise e) =>
      Some (Extracting_data_from_image :: sigs
              ++ [Extract_error e; extract_finished_error e], st)
  | (sigs, Ok data) =>
      st ← unpack_files loads path_join splitext basename creatable
             output_dir data st;
      Some (Extracting_data_from_image :: sigs
              ++ (unpack_signal <$> signals st), st)
  end.

End Runs.

(** * Properties *)

(** ** The LSB codec *)

Module LSBFacts.
Import LSB.

(** The flat description of the embed pass: the channels are stamped with
    the bits, one bit per channel in buffer order, as long as both last. *)
Fixpoint stamp (bits pixels : list Z) : list Z :=
  match bits, pixels with
  | b :: bits', c :: pixels' => Z.lor (Z.land c 254) b :: stamp bits' pixels'
  | _, _ => pixels
  end.

Lemma stamp_nil_l pixels : stamp [] pixels = pixels.
Proof. by destruct pixels. Qed.

Lemma stamp_length bits pixels : length (stamp bits pixels) = length pixels.
Proof.
  revert pixels. induction bits as [|b bits IH]; intros [|c pixels]; simpl; auto.
Qed.

Lemma stamp_lookup_lt bits pixels n :
  n < length bits ->
  stamp bits pixels !! n =
    (fun c => Z.lor (Z.land c 254) (bits !!! n)) <$> pixels !! n.
Proof.
  revert pixels n. induction bits as [|b bits IH]; intros [|c pixels] [|n] Hn;
    simpl in *; try lia; auto.
  apply IH. lia.
Qed.

Lemma stamp_lookup_ge bits pixels n :
  length bits <= n -> stamp bits pixels !! n = pixels !! n.
Proof.
  revert pixels n. induction bits as [|b bits IH]; intros [|c pixels] [|n] Hn;
    simpl in *; try lia; auto.
  apply IH. lia.
Qed.

Lemma stamp_take_ge bits pixels n :
  length pixels <= n -> stamp (take n bits) pixels = stamp bits pixels.
Proof.
  revert pixels n. induction bits as [|b bits IH]; intros [|c pixels] [|n] Hn;
    simpl in *; try lia; auto.
  f_equal. apply IH. lia.
Qed.

(** Writing channel [m] once the first [m] channels are stamped. *)
Lemma stamp_step bits pixels m :
  m < length bits ->
  <[m := Z.lor (Z.land (stamp (take m bits) pixels !!! m) 254) (bits !!! m)]>
    (stamp (take m bits) pixels)
  = stamp (take (S m) bits) pixels.
Proof.
  revert bits pixels. induction m as [|m IH]; intros [|b bits] [|c pixels] Hm;
    simpl in *; try lia; auto.
  f_equal. apply IH. lia.
Qed.

Section Embed.
Variables (w : nat) (bits buf0 : list Z).

(** The loop invariant of the embed pass: the first [idx] channels are
    stamped and the others are as in the input. *)
Definition stamped (st : list Z * nat) : Prop :=
  st.1 = stamp (take st.2 bits) buf0.

Lemma hide_channels pixels idx i j n :
  pixels = stamp (take idx bits) buf0 ->
  idx = chan w i j 0 ->
  n <= length bits - idx ->
  foldl (fun px k =>
           <[chan w i j k :=
               Z.lor (Z.land (px !!! chan w i j k) 254) (bits !!! (idx + k))]> px)
        pixels (seq 0 n)
  = stamp (take (idx + n) bits) buf0.
Proof.
  intros -> Hidx. induction n as [|n IH]; intros Hn.
  - by rewrite Nat.add_0_r.
  - rewrite seq_S, foldl_app, IH by lia. simpl.
    replace (chan w i j n) with (idx + n) by (unfold chan in *; lia).
    rewrite stamp_step by lia. by rewrite Nat.add_succ_r.
Qed.

Lemma hide_pixel_stamped i j st :
  stamped st -> st.2 = chan w i j 0 ->
  stamped (hide_pixel w bits i j st) /\
  (hide_pixel w bits i j st).2 = st.2 + 3.
Proof.
  destruct st as [pixels idx]. unfold stamped, hide_pixel. cbn [fst snd].
  intros Hst Hidx. split; [|done].
  rewrite (hide_channels pixels idx i j) by (done || lia).
  destruct (decide (3 <= length bits - idx)).
  - by rewrite Nat.min_l by lia.
  - rewrite Nat.min_r by lia.
    destruct (decide (idx <= length bits)).
    + replace (idx + (length bits - idx)) with (length bits) by lia.
      by rewrite !take_ge by lia.
    + replace (length bits - idx) with 0 by lia.
      by rewrite !take_ge by lia.
Qed.

Lemma hide_cols_stamped i m j0 st :
  stamped st -> st.2 = chan w i j0 0 ->
  let st' := hide_cols w bits i (seq j0 m) st in
  stamped st' /\ (st'.2 = chan w i (j0 + m) 0 \/ length bits <= st'.2).
Proof.
  revert j0 st. induction m as [|m IH]; intros j0 st Hst Hidx; simpl.
  - split; [done|]. left. by rewrite Nat.add_0_r.
  - destruct (st.2 <? length bits) eqn:Hlt.
    + destruct (hide_pixel_stamped i j0 st Hst Hidx) as [Hst' Hidx'].
      destruct (IH (S j0) _ Hst') as [H1 H2].
      { rewrite Hidx', Hidx. unfold chan. lia. }
      split; [done|]. by rewrite <- Nat.add_succ_comm.
    + apply Nat.ltb_ge in Hlt. auto.
Qed.

Lemma hide_rows_stamped m i0 st :
  stamped st -> st.2 = chan w i0 0 0 ->
  let st' := hide_rows w bits (seq i0 m) st in
  stamped st' /\ (st'.2 = chan w (i0 + m) 0 0 \/ length bits <= st'.2).
Proof.
  revert i0 st. induction m as [|m IH]; intros i0 st Hst Hidx; simpl.
  - split; [done|]. left. by rewrite Nat.add_0_r.
  - destruct (hide_cols_stamped i0 w 0 st Hst Hidx) as [Hst' Hidx'].
    simpl in Hidx'.
    destruct (length bits <=? _) eqn:Hle.
    + apply Nat.leb_le in Hle. auto.
    + apply Nat.leb_gt in Hle. destruct Hidx' as [Hidx'|?]; [|lia].
      destruct (IH (S i0) _ Hst') as [H1 H2].
      { rewrite Hidx'. unfold chan. lia. }
      split; [done|]. by rewrite <- Nat.add_succ_comm.
Qed.

(** The two loops of the embed pass stamp the bits on the buffer. *)
Lemma hide_rows_stamp h :
  length buf0 = h * w * 3 ->
  (hide_rows w bits (seq 0 h) (buf0, 0)).1 = stamp bits buf0.
Proof.
  intros Hlen.
  destruct (hide_rows_stamped h 0 (buf0, 0)) as [Hst Hidx].
  - unfold stamped. cbn [fst snd take]. by rewrite stamp_nil_l.
  - done.
  - rewrite Hst. destruct Hidx as [Hidx|Hidx].
    + apply stamp_take_ge. rewrite Hidx. unfold chan. lia.
    + by rewrite take_ge.
Qed.
End Embed.

(** The least significant bits of the channels, in buffer order: what the
    two scans of the extraction read. *)
Definition lsbs (pixels : list Z) : list Z := (fun c => Z.land c 1) <$> pixels.

Lemma lsbs_length pixels : length (lsbs pixels) = length pixels.
Proof. apply length_fmap. Qed.

Lemma lsbs_take_S pixels n :
  n < length pixels ->
  take n (lsbs pixels) ++ [Z.land (pixels !!! n) 1] = take (S n) (lsbs pixels).
Proof.
  intros Hn. symmetry. apply take_S_r. unfold lsbs.
  rewrite list_lookup_fmap.
  destruct (lookup_lt_is_Some_2 pixels n Hn) as [c Hc].
  by rewrite (list_lookup_total_correct _ _ _ Hc), Hc.
Qed.

Section Scan.
Variables (w h : nat) (pixels : list Z).
Hypothesis Hlen : length pixels = h * w * 3.

Let L := lsbs pixels.

Lemma read_pixel_take i j :
  i * w + j < h * w ->
  read_pixel w pixels i j (take (chan w i j 0) L)
  = take (chan w i (S j) 0) L.
Proof.
  intros Hp. unfold read_pixel. cbn [seq foldl].
  replace (chan w i j 1) with (S (chan w i j 0)) by (unfold chan; lia).
  replace (chan w i j 2) with (S (S (chan w i j 0))) by (unfold chan; lia).
  replace (chan w i (S j) 0) with (S (S (S (chan w i j 0))))
    by (unfold chan; lia).
  unfold L. rewrite !lsbs_take_S; [done|unfold chan; lia..].
Qed.

(** What a scan has read: the bits of the first [p] pixels. *)
Definition scanned (p : nat) (extracted_bits : list Z) : Prop :=
  p <= h * w /\ extracted_bits = take (3 * p) L.

Lemma scanned_length p bits : scanned p bits -> length bits = 3 * p.
Proof.
  intros [Hp ->]. rewrite length_take. unfold L. rewrite lsbs_length. lia.
Qed.

Lemma size_cols_scanned i m j0 bits :
  i < h -> j0 + m <= w ->
  scanned (i * w + j0) bits ->
  exists p, scanned p (size_cols w pixels i (seq j0 m) bits) /\
            (32 <= 3 * p \/ p = i * w + j0 + m).
Proof.
  revert j0 bits. induction m as [|m IH]; intros j0 bits Hi Hj Hs.
  - exists (i * w + j0). split; [done|]. right. lia.
  - cbn [seq size_cols].
    assert (Hs' : scanned (i * w + S j0) (read_pixel w pixels i j0 bits)).
    { destruct Hs as [Hp ->]. split; [nia|].
      replace (3 * (i * w + j0)) with (chan w i j0 0) by (unfold chan; lia).
      rewrite read_pixel_take by nia. f_equal. unfold chan. lia. }
    destruct (32 <=? _) eqn:Hle.
    + apply Nat.leb_le in Hle. rewrite (scanned_length _ _ Hs') in Hle.
      eauto.
    + destruct (IH (S j0) _ Hi ltac:(lia) Hs') as (p & Hp & Hor).
      exists p. split; [done|]. destruct Hor; [auto|right; lia].
Qed.

Lemma size_rows_scanned m i0 bits :
  i0 + m <= h ->
  scanned (i0 * w) bits ->
  exists p, scanned p (size_rows w pixels (seq i0 m) bits) /\
            (32 <= 3 * p \/ p = (i0 + m) * w).
Proof.
  revert i0 bits. induction m as [|m IH]; intros i0 bits Hi Hs.
  - exists (i0 * w). split; [done|]. right. f_equal. lia.
  - cbn [seq size_rows].
    destruct (size_cols_scanned i0 w 0 bits) as (p & Hp & Hor);
      [lia|lia|by rewrite Nat.add_0_r|].
    destruct (32 <=? _) eqn:Hle.
    + apply Nat.leb_le in Hle. rewrite (scanned_length _ _ Hp) in Hle. eauto.
    + apply Nat.leb_gt in Hle. rewrite (scanned_length _ _ Hp) in Hle.
      destruct Hor as [?| ->]; [lia|].
      destruct (IH (S i0) (size_cols w pixels i0 (seq 0 w) bits))
        as (p' & Hp' & Hor'); [lia| |].
      { replace (S i0 * w) with (i0 * w + 0 + w) by lia. done. }
      exists p'. split; [done|]. destruct Hor'; [auto|right; lia].
Qed.

(** The first scan stops on a pixel boundary, with 32 bits or more, or
    with the whole grid. *)
Lemma first_scan :
  exists p, scanned p (size_rows w pixels (seq 0 h) []) /\
            (32 <= 3 * p \/ p = h * w).
Proof.
  destruct (size_rows_scanned h 0 []) as (p & Hp & Hor); [lia| |eauto].
  split; [lia|]. done.
Qed.
End Scan.

Lemma read_rest_done fuel px total bits :
  total <= length bits -> read_rest fuel px total bits = Some (Ok bits).
Proof.
  intros Hle. apply Nat.leb_le in Hle. destruct fuel; simpl; by rewrite Hle.
Qed.

Section Rest.
Variables (px : ndarray) (total : nat).
Hypothesis Hlen : length (buf px) = shape0 px * shape1 px * 3.
Hypothesis Hw : 0 < shape1 px.

Let w := shape1 px.
Let h := shape0 px.
Let L := lsbs (buf px).

Lemma chan_div_mod p k : chan w (p / w) (p mod w) k = 3 * p + k.
Proof.
  unfold chan. pose proof (Nat.div_mod_eq p w). nia.
Qed.

(** One guarded read of the second scan. *)
Lemma read_channel n :
  n < length (buf px) ->
  (if length (take (n `min` total) L) <? total
   then take (n `min` total) L ++ [Z.land (buf px !!! n) 1]
   else take (n `min` total) L)
  = take (S n `min` total) L.
Proof.
  intros Hn.
  assert (HL : length L = length (buf px)) by apply lsbs_length.
  rewrite length_take, HL.
  destruct (_ <? total) eqn:Hlt.
  - apply Nat.ltb_lt in Hlt.
    rewrite Nat.min_l by lia. rewrite Nat.min_l by lia.
    by apply lsbs_take_S.
  - apply Nat.ltb_ge in Hlt. f_equal. lia.
Qed.

(** One turn of the second scan on pixel [p]: its three channels are
    read as long as bits are still needed. *)
Lemma read_channels p :
  p < h * w -> 3 * p < total ->
  foldl (fun acc k =>
           if length acc <? total
           then acc ++ [Z.land (buf px !!! chan w (p / w) (p mod w) k) 1]
           else acc)
        (take (3 * p) L) (seq 0 3)
  = take ((3 * p + 3) `min` total) L.
Proof.
  intros Hp Ht. cbn [seq foldl]. rewrite !chan_div_mod.
  replace (take (3 * p) L) with (take ((3 * p + 0) `min` total) L)
    by (f_equal; lia).
  rewrite read_channel by (fold w h; lia).
  replace (S (3 * p + 0)) with (3 * p + 1) by lia.
  rewrite read_channel by (fold w h; lia).
  replace (S (3 * p + 1)) with (3 * p + 2) by lia.
  rewrite read_channel by (fold w h; lia).
  f_equal. lia.
Qed.

(** The second scan, started on a pixel boundary, ends with the bits that
    are needed, or with all the bits of the grid; it does so within one
    unit of fuel per pixel left, and one more. *)
Lemma read_rest_scanned fuel p bits :
  scanned w h (buf px) p bits ->
  h * w - p < fuel ->
  read_rest fuel px total bits
  = Some (Ok (take ((3 * p) `max` (total `min` (3 * (h * w)))) L)).
Proof.
  revert p bits. induction fuel as [|fuel IH]; intros p bits Hs Hf; [lia|].
  pose proof (scanned_length w h (buf px) Hlen _ _ Hs) as Hlb.
  destruct Hs as [Hp Hb]. fold L in Hb.
  cbn [read_rest]. rewrite Hlb.
  destruct (total <=? 3 * p) eqn:Ht.
  { apply Nat.leb_le in Ht. rewrite Hb. do 3 f_equal. lia. }
  apply Nat.leb_gt in Ht.
  fold w h. destruct (w =? 0) eqn:Hw0; [apply Nat.eqb_eq in Hw0; lia|].
  replace (3 * p / 3) with p by (rewrite Nat.mul_comm, Nat.div_mul; lia).
  destruct (h <=? p / w) eqn:Hh.
  { apply Nat.leb_le in Hh.
    assert (h * w <= p).
    { pose proof (Nat.div_mod_eq p w). nia. }
    rewrite Hb. do 3 f_equal. lia. }
  apply Nat.leb_gt in Hh.
  assert (Hp' : p < h * w).
  { destruct (decide (p < h * w)); [done|].
    assert (h <= p / w); [|lia].
    apply Nat.div_le_lower_bound; lia. }
  rewrite Hb, read_channels by done.
  destruct (decide (3 * p + 3 <= total)) as [Hge|Hlt].
  - rewrite Nat.min_l by lia.
    rewrite (IH (S p)); [do 3 f_equal; lia| |lia].
    split; [lia|]. fold L. f_equal. lia.
  - rewrite Nat.min_r by lia.
    rewrite read_rest_done.
    + do 3 f_equal. lia.
    + rewrite length_take. unfold L. rewrite lsbs_length. fold w h. lia.
Qed.
End Rest.

Lemma slice_take {A} (l : list A) lo hi m :
  lo <= hi -> hi `min` length l <= m ->
  slice (take m l) lo hi = slice l lo hi.
Proof.
  intros Hlo Hm. unfold slice. rewrite !take_drop_commute, take_take.
  replace (lo + (hi - lo)) with hi by lia.
  destruct (decide (hi <= m)).
  - by rewrite Nat.min_l by lia.
  - rewrite Nat.min_r by lia.
    by rewrite (take_ge l m), (take_ge l hi) by lia.
Qed.

(** The number of bits the extraction asks for: 32 and eight per byte of
    the size decoded from the first 32 bits of the grid. *)
Definition total_bits_needed (px : ndarray) : nat :=
  32 + from_bytes (size_bytes (take 32 (lsbs (buf px)))) * 8.

(** The extraction returns, on every well-shaped pixel array: the bytes
    assembled from the bits 32 to [total_bits_needed] of the grid, as far
    as the grid has them. *)
Lemma extract_data_from_image_spec px :
  length (buf px) = shape0 px * shape1 px * 3 ->
  extract_data_from_image px
  = Some (data_bytes (slice (lsbs (buf px)) 32 (total_bits_needed px))).
Proof.
  intros Hlen. unfold extract_data_from_image, extract_body.
  destruct (first_scan (shape1 px) (shape0 px) (buf px) Hlen)
    as (p & Hs & Hor).
  pose proof (lsbs_length (buf px)) as HL.
  assert (Hsize : take 32 (size_rows (shape1 px) (buf px) (seq 0 (shape0 px)) [])
                  = take 32 (lsbs (buf px))).
  { destruct Hs as [Hp ->]. rewrite take_take.
    destruct Hor as [?| ->].
    - by rewrite Nat.min_l by lia.
    - destruct (decide (32 <= 3 * (shape0 px * shape1 px))).
      + by rewrite Nat.min_l by lia.
      + by rewrite !take_ge by lia. }
  rewrite Hsize. fold (total_bits_needed px).
  destruct (decide (0 < shape1 px)) as [Hw|Hw].
  - rewrite (read_rest_scanned px _ Hlen Hw _ p) by (done || lia).
    rewrite slice_take; [done|unfold total_bits_needed; lia|lia].
  - assert (Hw0 : shape1 px = 0) by lia.
    destruct Hs as [Hp ->]. rewrite Hw0 in *.
    replace p with 0 by lia.
    destruct (buf px) eqn:Hbuf; [|simpl in Hlen; lia].
    rewrite Nat.mul_0_r.
    cbn [Nat.mul Nat.add take lsbs fmap list_fmap read_rest length].
    replace (total_bits_needed px <=? 0) with false
      by (symmetry; apply Nat.leb_gt; unfold total_bits_needed; lia).
    rewrite Hw0. cbn [Nat.eqb]. unfold slice. by rewrite drop_nil, take_nil.
Qed.

(** *** Bits and bytes *)

Definition bit (b : Z) : Prop := b = 0%Z \/ b = 1%Z.

Lemma land_1_bit x : bit (Z.land x 1).
Proof.
  unfold bit. assert (Z.land x 1 = x mod 2)%Z as ->.
  { change 1%Z with (Z.ones 1). by rewrite Z.land_ones. }
  pose proof (Z.mod_pos_bound x 2 eq_refl). lia.
Qed.

Lemma lsb_stamped c b : bit b -> Z.land (Z.lor (Z.land c 254) b) 1 = b.
Proof.
  intros Hb. rewrite Z.land_lor_distr_l, <- Z.land_assoc.
  change (Z.land 254 1) with 0%Z. rewrite Z.land_0_r.
  by destruct Hb as [-> | ->].
Qed.

Lemma byte_bits_length b : length (byte_bits b) = 8.
Proof. done. Qed.

Lemma byte_bits_bit b : Forall bit (byte_bits b).
Proof.
  unfold byte_bits. apply Forall_fmap, Forall_forall. intros i _.
  apply land_1_bit.
Qed.

Lemma to_bits_length data : length (to_bits data) = 8 * length data.
Proof.
  unfold to_bits. induction data as [|b data IH]; [done|].
  cbn [mbind list_bind]. rewrite length_app, byte_bits_length.
  fold (data ≫= byte_bits). simpl length. lia.
Qed.

Lemma to_bits_app d1 d2 : to_bits (d1 ++ d2) = to_bits d1 ++ to_bits d2.
Proof. apply bind_app. Qed.

Lemma to_bits_bit data : Forall bit (to_bits data).
Proof.
  unfold to_bits. induction data as [|b data IH]; [constructor|].
  cbn [mbind list_bind]. apply Forall_app. split; [apply byte_bits_bit|done].
Qed.

(** The padding loop adds at most two zero bits. *)
Lemma pad_bits_spec bits :
  exists k, k < 3 /\ pad_bits 3 bits = bits ++ replicate k 0%Z /\
            (length bits + k) mod 3 = 0.
Proof.
  unfold pad_bits. rewrite !length_app. simpl length.
  assert (Hm : forall k, (length bits + k) mod 3 = (length bits mod 3 + k) mod 3).
  { intros k. by rewrite Nat.Div0.add_mod_idemp_l. }
  rewrite <- Nat.add_assoc, !Hm.
  pose proof (Nat.mod_upper_bound (length bits) 3 ltac:(done)) as Hlt.
  destruct (length bits mod 3) as [|[|[|r]]]; [| | |lia].
  - exists 0. rewrite (Hm 0). simpl. by rewrite app_nil_r.
  - exists 2. rewrite (Hm 2). simpl. rewrite <- app_assoc.
    split; [lia|done].
  - exists 1. rewrite (Hm 1). simpl. split; [lia|done].
Qed.

(** Reading the least significant bits of a stamped buffer gives the bits
    back, followed by those of the channels that were not written. *)
Lemma lsbs_stamp bits pixels :
  Forall bit bits -> length bits <= length pixels ->
  lsbs (stamp bits pixels) = bits ++ lsbs (drop (length bits) pixels).
Proof.
  intros Hb. revert pixels.
  induction Hb as [|b bits Hb _ IH]; intros pixels Hlen.
  - by rewrite stamp_nil_l.
  - destruct pixels as [|c pixels]; simpl in *; [lia|].
    f_equal; [by apply lsb_stamped|]. apply IH. lia.
Qed.

(** Every byte is the value of its eight bits. *)
Definition byte_check (n : nat) : bool :=
  (data_byte (byte_bits (Z.of_nat n)) 0 =? Z.of_nat n)%Z.

Lemma byte_check_all : forallb byte_check (seq 0 256) = true.
Proof. vm_compute. reflexivity. Qed.

Lemma byte_ok_spec b : byte_ok b = true <-> (0 <= b < 256)%Z.
Proof. unfold byte_ok. rewrite andb_true_iff, Z.leb_le, Z.ltb_lt. done. Qed.

Lemma data_byte_bits b : byte_ok b = true -> data_byte (byte_bits b) 0 = b.
Proof.
  intros Hb%byte_ok_spec.
  pose proof byte_check_all as Hall. rewrite forallb_forall in Hall.
  specialize (Hall (Z.to_nat b)). unfold byte_check in Hall.
  rewrite Z2Nat.id in Hall by lia. apply Z.eqb_eq, Hall, in_seq. lia.
Qed.

Lemma data_byte_at bits i b :
  byte_ok b = true ->
  (forall j, j < 8 -> bits !!! (i + j) = byte_bits b !!! j) ->
  data_byte bits i = b.
Proof.
  intros Hb Hj.
  transitivity (data_byte (byte_bits b) 0); [|by apply data_byte_bits].
  unfold data_byte. cbn [seq foldl]. by rewrite !Hj by lia.
Qed.

Lemma bytes_ok_cons b bs :
  bytes_ok (b :: bs) = true <-> byte_ok b = true /\ bytes_ok bs = true.
Proof. unfold bytes_ok. simpl. apply andb_true_iff. Qed.

Lemma bytes_ok_app b1 b2 :
  bytes_ok (b1 ++ b2) = true <-> bytes_ok b1 = true /\ bytes_ok b2 = true.
Proof. unfold bytes_ok. rewrite forallb_app. apply andb_true_iff. Qed.

(** The data loop, started on byte [q0] of a bit list that holds the bits
    of [data] from there on, appends [data]. *)
Lemma data_bytes_loop pre data acc q0 :
  bytes_ok data = true -> length pre = 8 * q0 ->
  foldl (fun acc i =>
           if i + 8 <=? length (pre ++ to_bits data)
           then acc ++ [data_byte (pre ++ to_bits data) i]
           else acc)
        acc ((fun q => 8 * q) <$> seq q0 (length data))
  = acc ++ data.
Proof.
  revert pre acc q0.
  induction data as [|b data IH]; intros pre acc q0 Hok Hpre.
  - simpl. by rewrite app_nil_r.
  - apply bytes_ok_cons in Hok as [Hb Hok].
    change (to_bits (b :: data)) with (byte_bits b ++ to_bits data).
    cbn [length seq fmap list_fmap foldl].
    replace (8 * q0 + 8 <=? _) with true.
    2:{ symmetry. apply Nat.leb_le.
        rewrite !length_app, byte_bits_length. lia. }
    rewrite (data_byte_at _ _ b Hb).
    2:{ intros j Hj. rewrite <- Hpre.
        rewrite lookup_total_app_r, Nat.add_comm, Nat.add_sub by lia.
        apply lookup_total_app_l. by rewrite byte_bits_length. }
    rewrite app_assoc.
    rewrite (IH (pre ++ byte_bits b) (acc ++ [b]) (S q0) Hok).
    + by rewrite <- app_assoc.
    + rewrite length_app, byte_bits_length. lia.
Qed.

(** The bytes of the bits of [data] are [data]. *)
Lemma data_bytes_to_bits data :
  bytes_ok data = true -> data_bytes (to_bits data) = data.
Proof.
  intros Hok. unfold data_bytes, range8.
  replace ((length (to_bits data) + 7) / 8) with (length data).
  2:{ rewrite to_bits_length, (Nat.mul_comm 8), Nat.div_add_l by done.
      simpl. lia. }
  apply (data_bytes_loop [] data [] 0 Hok). done.
Qed.

Lemma size_byte_data_byte bits i :
  i + 8 <= length bits -> size_byte bits i = data_byte bits i.
Proof.
  intros Hi. unfold size_byte, data_byte. cbn [seq foldl].
  repeat match goal with
  | |- context [?a <? ?b] =>
      replace (a <? b) with true by (symmetry; apply Nat.ltb_lt; lia)
  end.
  done.
Qed.

Lemma size_bytes_data_bytes bits :
  length bits = 32 -> size_bytes bits = data_bytes bits.
Proof.
  intros Hlen. unfold size_bytes, data_bytes, range8. rewrite Hlen.
  cbn [fmap list_fmap]. rewrite !size_byte_data_byte by lia.
  change (seq 0 ((32 + 7) / 8)) with [0; 1; 2; 3]. done.
Qed.

Lemma to_bytes4_ok n size :
  to_bytes4 n = Ok size ->
  length size = 4 /\ bytes_ok size = true /\ from_bytes size = n.
Proof.
  unfold to_bytes4. destruct (_ <? _)%Z eqn:Hlt; [|done].
  apply Z.ltb_lt in Hlt. intros [= <-]. split; [done|]. split.
  - unfold bytes_ok, byte_ok. cbn [forallb].
    repeat match goal with
    | |- context [(?a mod 256)%Z] =>
        lazymatch goal with
        | _ : (0 <= a mod 256 < 256)%Z |- _ => fail
        | _ => pose proof (Z.mod_pos_bound a 256 eq_refl)
        end
    end.
    rewrite !andb_true_iff, !Z.leb_le, !Z.ltb_lt. lia.
  - unfold from_bytes. cbn [foldl].
    rewrite <- (Nat2Z.id n) at 5. f_equal.
    pose proof (Nat2Z.is_nonneg n) as Hnn.
    generalize dependent (Z.of_nat n). intros z Hz Hnn.
    Z.to_euclidean_division_equations. lia.
Qed.

(** *** The two passes together *)

(** The bits the embed pass writes for [data]: those of the size and of
    the data, and the zero bits that fill the last pixel. *)
Definition embedded_bits (size data : bytes) : list Z :=
  pad_bits 3 (to_bits (size ++ data)).

(** What [hide_data_in_image] does when it returns [True]. *)
Lemma hide_data_in_image_Some px data px' :
  length (buf px) = shape0 px * shape1 px * 3 ->
  hide_data_in_image px data = Some px' ->
  exists size,
    to_bytes4 (length data) = Ok size /\
    length data + 8 <= max_bytes px /\
    px' = mk_ndarray (shape0 px) (shape1 px)
            (stamp (embedded_bits size data) (buf px)).
Proof.
  intros Hlen. unfold hide_data_in_image.
  destruct (to_bytes4 (length data)) as [size|] eqn:Hsize; [|done].
  destruct (to_bytes4_ok _ _ Hsize) as (Hl4 & _ & _).
  unfold can_hide_data. rewrite length_app, Hl4.
  destruct (_ <=? _) eqn:Hcap; [|done]. apply Nat.leb_le in Hcap.
  cbn [negb].
  pose proof (hide_rows_stamp (shape1 px) (embedded_bits size data) (buf px)
                (shape0 px) Hlen) as Hst.
  fold (embedded_bits size data).
  destruct (hide_rows _ _ _ _) as [pixels idx]. simpl in Hst. subst pixels.
  intros [= <-]. exists size. split; [done|]. split; [lia|done].
Qed.

Lemma hide_data_in_image_is_Some px data :
  (Z.of_nat (length data) < 2 ^ 32)%Z ->
  length data + 8 <= max_bytes px ->
  is_Some (hide_data_in_image px data).
Proof.
  intros Hn Hcap. unfold hide_data_in_image, to_bytes4.
  apply Z.ltb_lt in Hn. rewrite Hn.
  unfold can_hide_data. rewrite length_app. cbn [length].
  replace (_ <=? _) with true by (symmetry; apply Nat.leb_le; lia).
  cbn [negb]. destruct (hide_rows _ _ _ _). eauto.
Qed.

Lemma embedded_bits_spec size data :
  length size = 4 ->
  exists k, k < 3 /\
    embedded_bits size data = to_bits size ++ to_bits data ++ replicate k 0%Z /\
    length (embedded_bits size data) = 32 + 8 * length data + k /\
    (32 + 8 * length data + k) mod 3 = 0.
Proof.
  intros Hl4. unfold embedded_bits.
  destruct (pad_bits_spec (to_bits (size ++ data))) as (k & Hk & -> & Hmod).
  rewrite to_bits_app, length_app, !to_bits_length, Hl4 in Hmod.
  exists k. split; [done|]. split; [by rewrite to_bits_app, <- app_assoc|].
  split; [|done].
  rewrite to_bits_app, !length_app, !to_bits_length, length_replicate, Hl4. lia.
Qed.

Lemma embedded_bits_bit size data : Forall bit (embedded_bits size data).
Proof.
  unfold embedded_bits.
  destruct (pad_bits_spec (to_bits (size ++ data))) as (k & _ & -> & _).
  apply Forall_app. split; [apply to_bits_bit|].
  apply Forall_replicate. by left.
Qed.

(** Whatever [hide_data_in_image] saves, [extract_data_from_image] reads
    the data back from it. *)
Lemma hide_extract px data px' :
  length (buf px) = shape0 px * shape1 px * 3 ->
  bytes_ok data = true ->
  hide_data_in_image px data = Some px' ->
  extract_data_from_image px' = Some data.
Proof.
  intros Hlen Hok Hhide.
  destruct (hide_data_in_image_Some px data px' Hlen Hhide)
    as (size & Hsize & Hcap & ->).
  destruct (to_bytes4_ok _ _ Hsize) as (Hl4 & Hsok & Hfrom).
  destruct (embedded_bits_spec size data Hl4) as (k & Hk & Hbits & Hblen & _).
  assert (Hfit : length (embedded_bits size data) <= length (buf px)).
  { unfold max_bytes in Hcap.
    pose proof (Nat.Div0.mul_div_le (shape1 px * shape0 px * 3) 8). lia. }
  rewrite extract_data_from_image_spec
    by (cbn [buf shape0 shape1]; by rewrite stamp_length).
  assert (HL : lsbs (stamp (embedded_bits size data) (buf px))
               = to_bits size ++ to_bits data
                 ++ replicate k 0%Z
                 ++ lsbs (drop (length (embedded_bits size data)) (buf px))).
  { rewrite lsbs_stamp by (apply embedded_bits_bit || done).
    by rewrite Hbits, <- !app_assoc. }
  assert (Hs32 : length (to_bits size) = 32) by (rewrite to_bits_length; lia).
  unfold total_bits_needed. cbn [buf]. rewrite HL.
  rewrite take_app_length' by done.
  rewrite size_bytes_data_bytes, data_bytes_to_bits, Hfrom by done.
  unfold slice. rewrite drop_app_length' by done.
  rewrite take_app_length' by (rewrite to_bits_length; lia).
  f_equal. by apply data_bytes_to_bits.
Qed.

(** [hide_data_in_image] saves an image exactly when the size fits in four
    bytes and the capacity is that of the data and eight bytes more: the
    four bytes of the size are in [full_data], and [can_hide_data] adds
    four again. *)
Lemma hide_data_in_image_is_Some_iff px data :
  is_Some (hide_data_in_image px data) <->
  (Z.of_nat (length data) < 2 ^ 32)%Z /\ length data + 8 <= max_bytes px.
Proof.
  split; [|intros [? ?]; by apply hide_data_in_image_is_Some].
  unfold hide_data_in_image, to_bytes4.
  destruct (_ <? _)%Z eqn:Hlt; [|by intros [? ?]].
  apply Z.ltb_lt in Hlt. unfold can_hide_data. rewrite length_app.
  cbn [length]. destruct (_ <=? _) eqn:Hcap; [|by intros [? ?]].
  apply Nat.leb_le in Hcap. intros _. split; [done|lia].
Qed.

(** *** The frame of the embed pass *)

(** The number of channels of the consumed range: the [8 * (n + 4)] bits
    of the size and of the data, filled up with zero bits to whole
    pixels. *)
Definition consumed_channels (n : nat) : nat := 3 * ((8 * (n + 4) + 2) / 3).

Lemma embedded_bits_length size data :
  length size = 4 ->
  length (embedded_bits size data) = consumed_channels (length data).
Proof.
  intros Hl4.
  destruct (embedded_bits_spec size data Hl4) as (k & Hk & _ & -> & Hmod).
  unfold consumed_channels.
  apply Nat.Div0.div_exact in Hmod.
  set (m := 32 + 8 * length data + k) in *.
  replace (8 * (length data + 4) + 2) with (3 * (m / 3) + (2 - k)) by lia.
  rewrite (Nat.mul_comm 3 (m / 3)), Nat.div_add_l by done.
  rewrite (Nat.div_small (2 - k)) by lia. lia.
Qed.

Lemma stamp_upper_bits bits pixels c :
  Forall bit bits ->
  Z.land (stamp bits pixels !!! c) 254 = Z.land (pixels !!! c) 254.
Proof.
  intros Hb. revert pixels c.
  induction Hb as [|b bits Hb _ IH]; intros pixels c.
  - by rewrite stamp_nil_l.
  - destruct pixels as [|v pixels]; [done|]. destruct c as [|c]; simpl.
    + rewrite Z.land_lor_distr_l, <- Z.land_assoc. simpl Z.land at 2.
      by destruct Hb as [-> | ->]; rewrite ?Z.lor_0_r.
    + apply IH.
Qed.

(** A stamped uint8 is a uint8. *)
Definition stamp_check (n : nat) : bool :=
  byte_ok (Z.lor (Z.land (Z.of_nat n) 254) 0)
  && byte_ok (Z.lor (Z.land (Z.of_nat n) 254) 1).

Lemma stamp_check_all : forallb stamp_check (seq 0 256) = true.
Proof. vm_compute. reflexivity. Qed.

Lemma stamp_byte_ok v b :
  byte_ok v = true -> bit b -> byte_ok (Z.lor (Z.land v 254) b) = true.
Proof.
  intros Hv%byte_ok_spec Hb.
  pose proof stamp_check_all as Hall. rewrite forallb_forall in Hall.
  specialize (Hall (Z.to_nat v)). unfold stamp_check in Hall.
  rewrite Z2Nat.id, andb_true_iff in Hall by lia.
  destruct Hall as [H0 H1]; [apply in_seq; lia|].
  by destruct Hb as [-> | ->].
Qed.

Lemma stamp_bytes_ok bits pixels :
  Forall bit bits -> bytes_ok pixels = true ->
  bytes_ok (stamp bits pixels) = true.
Proof.
  intros Hb. revert pixels.
  induction Hb as [|b bits Hb _ IH]; intros pixels Hok.
  - by rewrite stamp_nil_l.
  - destruct pixels as [|v pixels]; [done|]. simpl.
    apply bytes_ok_cons in Hok as [Hv Hok].
    apply bytes_ok_cons. split; [by apply stamp_byte_ok|by apply IH].
Qed.

End LSBFacts.

Module LSBClaims.
Import LSB LSBFacts.

(** A 5 x 3 image (15 pixels, 45 channels of value 200): its capacity is
    [45 // 8 = 5] bytes, which is what one byte of payload and the four
    bytes of the size need. *)
Definition img_5x3 : ndarray := mk_ndarray 3 5 (replicate 45 200%Z).

(** C1 (at the failing input). The round trip
    [extract(embed(image, payload)) == payload] is promised for every image
    with [maxBytes(image) >= n + 4]. On the 5 x 3 image ([maxBytes = 5]) and
    the one byte payload [b'H'] [hide_data_in_image] returns [False] and
    saves no image, although [can_hide_data], asked with the payload size
    as [_hide_files] does, accepts the pair: the method passes
    [len(full_data)], which already counts the four bytes of the size, to a
    check that adds them again. *)
Theorem hide_refuses_within_capacity :
  wf img_5x3 /\
  1 + 4 <= max_bytes img_5x3 /\
  can_hide_data img_5x3 1 = true /\
  hide_data_in_image img_5x3 [72%Z] = None.
Proof. unfold wf. repeat split; vm_compute; (reflexivity || lia). Qed.

(** A 14 x 1 image: [maxBytes = 42 // 8 = 5]. *)
Definition img_14x1 : ndarray := mk_ndarray 1 14 (replicate 42 255%Z).

(** C2 (at the failing input). With [maxBytes == n + 4] for [n = 1], the
    payload of [n] bytes is refused ([hide_data_in_image] returns [False]),
    as the payload of [n + 1] bytes is. The first should have succeeded:
    the same defect as for C1, the size counted twice. *)
Theorem hide_refuses_at_capacity :
  max_bytes img_14x1 = 1 + 4 /\
  hide_data_in_image img_14x1 [65%Z] = None /\
  hide_data_in_image img_14x1 [65%Z; 66%Z] = None.
Proof. repeat split; vm_compute; reflexivity. Qed.

(** C3. When [hide_data_in_image] saves an image: the shape is kept; every
    channel keeps its upper seven bits (only the least significant bit of a
    channel is ever written), and every channel beyond the consumed range
    is as it was. The consumed range is the [8 * (n + 4)] bits of the size
    and the data, filled with zero bits to whole pixels, in row-major pixel
    order and R, G, B channel order. *)
Theorem embed_changes_only_lsbs px data px' :
  wf px ->
  hide_data_in_image px data = Some px' ->
  (shape0 px' = shape0 px /\ shape1 px' = shape1 px /\ wf px') /\
  (forall c, Z.land (buf px' !!! c) 254 = Z.land (buf px !!! c) 254) /\
  (forall c, consumed_channels (length data) <= c ->
             buf px' !! c = buf px !! c).
Proof.
  intros [Hlen Hok] Hhide.
  destruct (hide_data_in_image_Some px data px' Hlen Hhide)
    as (size & Hsize & Hcap & ->).
  destruct (to_bytes4_ok _ _ Hsize) as (Hl4 & _ & _).
  pose proof (embedded_bits_bit size data) as Hbit.
  cbn [shape0 shape1 buf]. split; [|split].
  - split; [done|]. split; [done|]. split; cbn [shape0 shape1 buf].
    + by rewrite stamp_length.
    + by apply stamp_bytes_ok.
  - intros c. by apply stamp_upper_bits.
  - intros c Hc. apply stamp_lookup_ge.
    by rewrite embedded_bits_length.
Qed.

(** A 10 x 3 image of white pixels and a payload of three bytes. *)
Definition img_10x3 : ndarray := mk_ndarray 3 10 (replicate 90 255%Z).

Lemma embed_changes_only_lsbs_witness :
  exists px',
    hide_data_in_image img_10x3 [1; 2; 3]%Z = Some px' /\
    (forall c, Z.land (buf px' !!! c) 254 = Z.land (buf img_10x3 !!! c) 254) /\
    (forall c, consumed_channels 3 <= c -> buf px' !! c = buf img_10x3 !! c).
Proof.
  eexists. split; [vm_compute; reflexivity|].
  eapply (embed_changes_only_lsbs img_10x3 [1; 2; 3]%Z).
  - split; reflexivity.
  - vm_compute; reflexivity.
Defined.

(** The fill bits are written too: of the 57 channels of the consumed
    range of a payload of three bytes, the last holds the one zero bit
    that fills the 56 bits of the size and the data to whole pixels, and its
    value goes from 255 to 254; the next channel is not touched. *)
Example fill_bit_written px' :
  hide_data_in_image img_10x3 [1; 2; 3]%Z = Some px' ->
  consumed_channels 3 = 57 /\
  buf px' !! 56 = Some 254%Z /\ buf px' !! 57 = Some 255%Z.
Proof. intros H. vm_compute in H. injection H as <-. by vm_compute. Qed.

(** C4. When the pixel grid has fewer bits than the [32 + n * 8] that
    the size [n], decoded from the first 32 bits, asks for, the extraction
    raises nothing and returns the bytes assembled from all the bits of the
    grid after the first 32. *)
Theorem extract_truncated px :
  length (buf px) = shape0 px * shape1 px * 3 ->
  length (buf px) < total_bits_needed px ->
  extract_data_from_image px = Some (data_bytes (drop 32 (lsbs (buf px)))).
Proof.
  intros Hlen Hshort. rewrite extract_data_from_image_spec by done.
  unfold slice. rewrite take_ge; [done|].
  rewrite length_drop, lsbs_length. lia.
Qed.

(** A 4 x 4 image whose first 32 bits give the size 3: 56 bits are asked
    for and the grid has 48. *)
Definition img_4x4 : ndarray :=
  mk_ndarray 4 4 (replicate 24 0 ++ [1; 1] ++ replicate 6 0
                  ++ [1; 0; 0; 0; 0; 1; 1; 0; 0; 1; 0; 0; 0; 1; 1; 0])%Z.

Lemma extract_truncated_witness :
  length (buf img_4x4) < total_bits_needed img_4x4 /\
  extract_data_from_image img_4x4 = Some [97; 98]%Z.
Proof.
  split; [vm_compute; lia|].
  rewrite (extract_truncated img_4x4); [reflexivity|reflexivity|].
  vm_compute; lia.
Defined.



(** X2. [extract_data_from_image] returns on every pixel array: the second
    scan ends within its fuel, and an exception ends in [b'']. *)
Theorem extract_data_from_image_total px :
  length (buf px) = shape0 px * shape1 px * 3 ->
  is_Some (extract_data_from_image px).
Proof. intros Hlen. rewrite extract_data_from_image_spec by done. eauto. Qed.

Lemma extract_data_from_image_total_witness :
  is_Some (extract_data_from_image img_4x4).
Proof. apply extract_data_from_image_total. reflexivity. Defined.

End LSBClaims.


(** ** The encrypted envelope *)

Module EnvelopeFacts.
Import Padding.

Lemma startswith_app prefix rest : startswith (prefix ++ rest) prefix = true.
Proof.
  induction prefix as [|p prefix IH]; simpl; [done|].
  by rewrite Z.eqb_refl, IH.
Qed.

Lemma pad_length data :
  exists k, 1 <= k <= 16 /\ pad data = data ++ replicate k (Z.of_nat k) /\
            (length data + k) mod 16 = 0.
Proof.
  unfold pad, block_size.
  pose proof (Nat.mod_upper_bound (length data) 16 ltac:(done)) as Hlt.
  exists (16 - length data mod 16). split; [lia|]. split; [done|].
  pose proof (Nat.div_mod_eq (length data) 16) as Hdm.
  replace (length data + (16 - length data mod 16))
    with ((1 + length data / 16) * 16) by lia.
  apply Nat.Div0.mod_mul.
Qed.

Lemma unpad_pad data : unpad (pad data) = Ok data.
Proof.
  destruct (pad_length data) as (k & Hk & -> & Hmod).
  unfold unpad, block_size. rewrite length_app, length_replicate.
  replace (length data + k =? 0) with false
    by (symmetry; apply Nat.eqb_neq; lia).
  rewrite Hmod. cbn [Nat.eqb negb].
  rewrite lookup_total_app_r by lia.
  rewrite lookup_total_replicate_2 by lia.
  rewrite Nat2Z.id.
  replace (k <? 1) with false by (symmetry; apply Nat.ltb_ge; lia).
  replace (16 `min` (length data + k) <? k) with false.
  2:{ symmetry. apply Nat.ltb_ge.
      destruct (decide (16 <= length data + k)); [lia|].
      assert (length data + k = 0); [|lia].
      rewrite <- Hmod. symmetry. apply Nat.mod_small. lia. }
  replace (length data + k - k) with (length data) by lia.
  rewrite drop_app_length, take_app_length.
  by rewrite bool_decide_eq_true_2 by done.
Qed.

End EnvelopeFacts.

(** A stand-in for the library cipher, to run the envelope on: the key
    is a constant, a cipher object is its key and IV, and a message of
    whole blocks is reversed. *)
Module ToyCipher.

Definition cipher : Type := bytes * bytes.

Definition pbkdf2_hmac (password : string) (salt : bytes) : bytes :=
  replicate 32 7%Z.

Definition AES_new (key iv : bytes) : result cipher :=
  if (length key =? 32) && (length iv =? 16) then Ok (key, iv)
  else Raise (ValueError "Incorrect AES key or IV length").

Definition crypt (c : cipher) (m : bytes) : result bytes :=
  if length m mod 16 =? 0 then Ok (reverse m)
  else Raise (ValueError "Data must be padded to 16 byte boundary in CBC mode").

Lemma pbkdf2_hmac_length password salt :
  length (pbkdf2_hmac password salt) = 32.
Proof. done. Qed.

Lemma AES_new_ok key iv :
  length key = 32 -> length iv = 16 -> exists c, AES_new key iv = Ok c.
Proof. intros Hk Hi. unfold AES_new. rewrite Hk, Hi. eauto. Qed.

Lemma crypt_inverse key iv c m :
  AES_new key iv = Ok c -> length m mod 16 = 0 ->
  exists ct, crypt c m = Ok ct /\ crypt c ct = Ok m.
Proof.
  intros _ Hm. exists (reverse m). unfold crypt.
  by rewrite length_reverse, Hm, reverse_involutive.
Qed.

End ToyCipher.

Section EnvelopeClaims.
Context {cipher : Type}.
Variable pbkdf2_hmac : string -> bytes -> bytes.
Variable AES_new : bytes -> bytes -> result cipher.
Variable encrypt : cipher -> bytes -> result bytes.
Variable decrypt : cipher -> bytes -> result bytes.

(** The contract of the library: the derived key has 32 bytes; a 32 byte
    key and a 16 byte IV make a cipher object; the cipher object of a key
    and an IV encrypts whole blocks, and the cipher object of the same
    key and IV decrypts the result to the message. *)
Hypothesis pbkdf2_hmac_length :
  forall password salt, length (pbkdf2_hmac password salt) = 32.
Hypothesis AES_new_ok :
  forall key iv,
    length key = 32 -> length iv = 16 -> exists c, AES_new key iv = Ok c.
Hypothesis decrypt_encrypt :
  forall key iv c m,
    AES_new key iv = Ok c -> length m mod 16 = 0 ->
    exists ct, encrypt c m = Ok ct /\ decrypt c ct = Ok m.

(** C5. For every [data] and [password], and whatever two draws of 16
    random bytes [encrypt_data] makes for the salt and the IV, it returns
    an envelope, and [decrypt_data] on that envelope with the same
    password returns [data]. *)
Theorem decrypt_data_encrypt_data data password salt iv :
  length salt = 16 -> length iv = 16 ->
  exists envelope,
    encrypt_data pbkdf2_hmac AES_new encrypt salt iv data password
      = Ok envelope /\
    decrypt_data pbkdf2_hmac AES_new decrypt envelope password = Ok data.
Proof.
  intros Hsalt Hiv.
  destruct (AES_new_ok (pbkdf2_hmac password salt) iv) as [c Hc];
    [done..|].
  destruct (EnvelopeFacts.pad_length data) as (k & _ & Hpad & Hmod).
  destruct (decrypt_encrypt _ _ c (Padding.pad data) Hc) as (ct & Hct & Hpt).
  { by rewrite Hpad, length_app, length_replicate. }
  exists (ENCRYPTION_HEADER ++ salt ++ iv ++ ct). split.
  - unfold encrypt_data, derive_key. rewrite Hc. cbn [mbind result_bind].
    by rewrite Hct.
  - unfold decrypt_data. rewrite EnvelopeFacts.startswith_app.
    cbn [negb]. rewrite drop_app_length. unfold slice.
    rewrite take_app_length' by done.
    rewrite (drop_app_length' salt _ 16) by done.
    replace (32 - 16) with (length iv) by lia. rewrite take_app_length.
    replace 32 with (length (salt ++ iv))
      by (rewrite length_app; lia).
    rewrite (app_assoc salt iv ct), drop_app_length.
    unfold derive_key. rewrite Hc. cbn [mbind result_bind].
    rewrite Hpt. cbn [mbind result_bind].
    by rewrite EnvelopeFacts.unpad_pad.
Qed.

(** C6. For every [b] that does not start with the magic marker and every
    password, [decrypt_data] raises [ValueError("Invalid data format")],
    the format error of the envelope. *)
Theorem decrypt_data_bad_magic b password :
  startswith b ENCRYPTION_HEADER = false ->
  decrypt_data pbkdf2_hmac AES_new decrypt b password
  = Raise (ValueError "Invalid data format").
Proof. intros Hb. unfold decrypt_data. by rewrite Hb. Qed.
End EnvelopeClaims.

Lemma decrypt_data_encrypt_data_witness :
  exists envelope,
    encrypt_data ToyCipher.pbkdf2_hmac ToyCipher.AES_new ToyCipher.crypt
      (replicate 16 1%Z) (replicate 16 2%Z) [104; 105]%Z "secret"
      = Ok envelope /\
    decrypt_data ToyCipher.pbkdf2_hmac ToyCipher.AES_new ToyCipher.crypt
      envelope "secret" = Ok [104; 105]%Z.
Proof.
  apply (decrypt_data_encrypt_data
           ToyCipher.pbkdf2_hmac ToyCipher.AES_new
           ToyCipher.crypt ToyCipher.crypt
           ToyCipher.pbkdf2_hmac_length ToyCipher.AES_new_ok
           ToyCipher.crypt_inverse);
    reflexivity.
Defined.

Lemma decrypt_data_bad_magic_witness :
  decrypt_data ToyCipher.pbkdf2_hmac ToyCipher.AES_new ToyCipher.crypt
    [73; 78; 86; 73; 83; 73; 79; 86; 65; 85; 76; 0; 1; 2]%Z "secret"
  = Raise (ValueError "Invalid data format").
Proof.
  apply (decrypt_data_bad_magic
           ToyCipher.pbkdf2_hmac ToyCipher.AES_new ToyCipher.crypt).
  reflexivity.
Defined.

(** ** The archive and the worker *)

(** *** Names *)

Lemma list_ascii_of_string_app s t :
  String.list_ascii_of_string (s +:+ t)
  = String.list_ascii_of_string s ++ String.list_ascii_of_string t.
Proof. induction s as [|a s IH]; simpl; [done|]. by rewrite IH. Qed.

Lemma string_app_inv_tail s1 s2 t : s1 +:+ t = s2 +:+ t -> s1 = s2.
Proof.
  intros H. apply (f_equal String.list_ascii_of_string) in H.
  rewrite !list_ascii_of_string_app in H. apply app_inv_tail in H.
  rewrite <- (String.string_of_list_ascii_of_string s1).
  rewrite <- (String.string_of_list_ascii_of_string s2). by rewrite H.
Qed.

(** Two counters give two names. *)
Lemma numbered_inj base ext c1 c2 :
  numbered base ext c1 = numbered base ext c2 -> c1 = c2.
Proof.
  unfold numbered. intros H.
  apply String.app_inj, String.app_inj in H.
  apply string_app_inv_tail in H. by apply pretty_nat_inj in H.
Qed.

(** *** The loop on the names *)

Lemma path_exists_false st p : path_exists st p = false <-> fs st !! p = None.
Proof.
  unfold path_exists. rewrite bool_decide_eq_false.
  by rewrite <- eq_None_not_Some.
Qed.

Lemma path_exists_true st p :
  path_exists st p = true <-> is_Some (fs st !! p).
Proof. unfold path_exists. by rewrite bool_decide_eq_true. Qed.

(** The name the loop ends with is not taken; it is the first name, or a
    numbered one, and then the names tried before it are all taken. *)
Lemma unique_path_Some fuel st base ext file_path counter q :
  unique_path fuel st base ext file_path counter = Some q ->
  fs st !! q = None /\
  (q = file_path \/
   is_Some (fs st !! file_path) /\
   exists c, counter <= c /\ q = numbered base ext c /\
     forall c', counter <= c' < c -> is_Some (fs st !! numbered base ext c')).
Proof.
  revert file_path counter.
  induction fuel as [|fuel IH]; intros file_path counter; simpl.
  - destruct (path_exists st file_path) eqn:Hex; [done|].
    intros [= <-]. split; [by apply path_exists_false|by left].
  - destruct (path_exists st file_path) eqn:Hex.
    + intros Hq. apply IH in Hq as [Hnone Hshape]. split; [done|].
      right. split; [by apply path_exists_true|].
      destruct Hshape as [->|(Hnum & c & Hc & -> & Hbefore)].
      * exists counter. split; [lia|]. split; [done|]. intros c' ?. lia.
      * exists c. split; [lia|]. split; [done|]. intros c' Hc'.
        destruct (decide (c' = counter)) as [->|]; [done|].
        apply Hbefore. lia.
    + intros [= <-]. split; [by apply path_exists_false|by left].
Qed.

(** The loop on the numbered names ends when it has as much fuel as the
    set [X] of the taken names it can still meet has elements. *)
Lemma unique_path_numbered fuel st base ext counter (X : gset string) :
  size X <= fuel ->
  (forall c, counter <= c -> is_Some (fs st !! numbered base ext c) ->
             numbered base ext c ∈ X) ->
  is_Some (unique_path fuel st base ext (numbered base ext counter) (S counter)).
Proof.
  revert counter X. induction fuel as [|fuel IH]; intros counter X Hsz HX;
    simpl; destruct (path_exists st (numbered base ext counter)) eqn:Hex;
    try by eauto.
  - apply path_exists_true in Hex.
    assert (Hin : numbered base ext counter ∈ X) by (apply HX; [lia|done]).
    assert (X ≡ ∅) by (apply size_empty_inv; lia). set_solver.
  - apply path_exists_true in Hex.
    assert (Hin : numbered base ext counter ∈ X) by (apply HX; [lia|done]).
    apply (IH (S counter) (X ∖ {[numbered base ext counter]})).
    + rewrite size_difference, size_singleton by set_solver. lia.
    + intros c Hc Hsome. apply elem_of_difference.
      split; [apply HX; [lia|done]|].
      rewrite not_elem_of_singleton. intros Heq%numbered_inj. lia.
Qed.

Lemma unique_path_total st base ext file_path :
  is_Some (unique_path (S (size (fs st))) st base ext file_path 1).
Proof.
  cbn [unique_path]. destruct (path_exists st file_path); [|eauto].
  apply (unique_path_numbered _ st base ext 1 (dom (fs st))).
  - by rewrite size_dom.
  - intros c _ Hsome. by apply elem_of_dom.
Qed.

(** *** The archive layout *)

(** The four bytes of a size. *)
Definition size4 (n : nat) : bytes :=
  let z := Z.of_nat n in
  [ (z / 2 ^ 24) mod 256; (z / 2 ^ 16) mod 256;
    (z / 2 ^ 8) mod 256; z mod 256 ]%Z.

(** A size that four bytes can hold. *)
Definition fits4 (n : nat) : Prop := (Z.of_nat n < 2 ^ 32)%Z.

Lemma to_bytes4_Ok n size : to_bytes4 n = Ok size <-> fits4 n /\ size = size4 n.
Proof.
  unfold to_bytes4, fits4. destruct (_ <? _)%Z eqn:Hlt.
  - apply Z.ltb_lt in Hlt. split; [by intros [= <-]|by intros [_ ->]].
  - apply Z.ltb_ge in Hlt. split; [done|]. intros [? _]. lia.
Qed.

Lemma to_bytes4_fits n : fits4 n -> to_bytes4 n = Ok (size4 n).
Proof. intros. by apply to_bytes4_Ok. Qed.

Lemma size4_length n : length (size4 n) = 4.
Proof. done. Qed.

Lemma from_bytes_size4 n : fits4 n -> from_bytes (size4 n) = n.
Proof.
  intros Hn. apply (LSBFacts.to_bytes4_ok n). by apply to_bytes4_fits.
Qed.

(** The records of an archive, each after its size. *)
Definition blocks (records : list bytes) : bytes :=
  records ≫= fun data => size4 (length data) ++ data.

Lemma blocks_cons data records :
  blocks (data :: records) = size4 (length data) ++ data ++ blocks records.
Proof. unfold blocks. cbn [mbind list_bind]. by rewrite <- app_assoc. Qed.

Lemma blocks_app r1 r2 : blocks (r1 ++ r2) = blocks r1 ++ blocks r2.
Proof. apply bind_app. Qed.

Lemma pack_fold_Raise e records : foldl pack_step (Raise e) records = Raise e.
Proof. induction records as [|data records IH]; simpl; done. Qed.

Lemma pack_fold_Ok records acc archive :
  foldl pack_step (Ok acc) records = Ok archive ->
  Forall (fun data => fits4 (length data)) records /\
  archive = acc ++ blocks records.
Proof.
  revert acc. induction records as [|data records IH]; intros acc;
    cbn [foldl].
  - intros [= <-]. split; [constructor|]. unfold blocks. simpl.
    by rewrite app_nil_r.
  - unfold pack_step at 2. cbn [mbind result_bind].
    destruct (to_bytes4 (length data)) as [size|e] eqn:Hsize;
      cbn [mbind result_bind mret result_ret].
    + apply to_bytes4_Ok in Hsize as [Hfit ->]. intros Hfold.
      apply IH in Hfold as [Hall ->]. split; [by constructor|].
      by rewrite blocks_cons, <- !app_assoc.
    + by rewrite pack_fold_Raise.
Qed.

(** What [pack_files] returns: the count in four bytes, then the blocks. *)
Lemma pack_files_Ok records archive :
  pack_files records = Ok archive ->
  fits4 (length records) /\
  Forall (fun data => fits4 (length data)) records /\
  archive = size4 (length records) ++ blocks records.
Proof.
  unfold pack_files.
  destruct (to_bytes4 (length records)) as [count|e] eqn:Hcount; simpl; [|done].
  apply to_bytes4_Ok in Hcount as [Hfit ->]. intros Hfold.
  apply pack_fold_Ok in Hfold as [Hall ->]. done.
Qed.

(** *** The unpacking loop *)

Section WorkerFacts.
Variable dumps : json -> bytes.
Variable loads : bytes -> result json.
Variable path_join : string -> string -> string.
Variable splitext : string -> string * string.
Variable basename : string -> string.
Variable creatable : string -> bool.

#[local] Abbreviation save := (save_file path_join splitext basename creatable).
#[local] Abbreviation step :=
  (extract_record loads path_join splitext basename creatable).
#[local] Abbreviation loop :=
  (unpack_loop loads path_join splitext basename creatable).
#[local] Abbreviation unpack :=
  (unpack_files loads path_join splitext basename creatable).

(** A file record is the size of its metadata, the metadata and the
    content. *)
Lemma prepare_file_data_Ok filename timestamp file_data record :
  prepare_file_data dumps filename timestamp file_data = Ok record ->
  let metadata_bytes :=
    dumps (metadata_of filename (length file_data) timestamp) in
  fits4 (length metadata_bytes) /\
  record = size4 (length metadata_bytes) ++ metadata_bytes ++ file_data.
Proof.
  unfold prepare_file_data.
  destruct (to_bytes4 _) as [size|e] eqn:Hsize; [|done].
  apply to_bytes4_Ok in Hsize as [Hfit ->]. by intros [= <-].
Qed.

(** Unpacking a record that was prepared gives its metadata and content,
    when [json.loads] reads what [json.dumps] wrote. *)
Lemma extract_file_data_prepare filename timestamp file_data record :
  let metadata := metadata_of filename (length file_data) timestamp in
  loads (dumps metadata) = Ok metadata ->
  prepare_file_data dumps filename timestamp file_data = Ok record ->
  extract_file_data loads record = Ok (metadata, file_data).
Proof.
  intros metadata Hloads Hrec.
  apply prepare_file_data_Ok in Hrec as [Hfit ->]. fold metadata in Hfit |- *.
  unfold extract_file_data.
  rewrite take_app_length' by done. rewrite from_bytes_size4 by done.
  unfold slice. rewrite drop_app_length' by done.
  replace (4 + length (dumps metadata) - 4) with (length (dumps metadata))
    by lia.
  rewrite take_app_length, Hloads.
  replace (4 + length (dumps metadata))
    with (length (size4 (length (dumps metadata)) ++ dumps metadata))
    by (rewrite length_app; done).
  by rewrite app_assoc, drop_app_length.
Qed.

(** Saving a file always ends. *)
Lemma save_file_total output_dir metadata content st :
  is_Some (save output_dir metadata content st).
Proof.
  unfold save_file. destruct (filename_of metadata); [|eauto].
  destruct (splitext _) as [base ext].
  destruct (unique_path_total st base ext (path_join output_dir a))
    as [file_path ->].
  destruct (creatable file_path); eauto.
Qed.

(** A file that is saved is written to a path that did not exist: the path
    asked for, or, when that one exists, the first numbered name that does
    not. Nothing else changes in the file system. *)
Lemma save_file_Ok output_dir metadata content st st' :
  save output_dir metadata content st = Some (Ok st') ->
  exists filename file_path,
    filename_of metadata = Ok filename /\
    fs st !! file_path = None /\
    fs st' = <[file_path := content]> (fs st) /\
    extracted_files st' = extracted_files st ++ [file_path] /\
    signals st' = signals st ++ [status_signal (Extracted (basename file_path))] /\
    let target := path_join output_dir filename in
    (file_path = target \/
     is_Some (fs st !! target) /\
     exists c, 1 <= c /\
       file_path = numbered (splitext target).1 (splitext target).2 c /\
       forall c', 1 <= c' < c ->
         is_Some (fs st !! numbered (splitext target).1 (splitext target).2 c')).
Proof.
  unfold save_file.
  destruct (filename_of metadata) as [filename|]; [|done].
  destruct (splitext _) as [base ext] eqn:Hsplit.
  destruct (unique_path _ _ _ _ _ _) as [file_path|] eqn:Hunique; [|done].
  destruct (creatable file_path); [|done]. intros [= <-].
  apply unique_path_Some in Hunique as [Hnone Hshape].
  exists filename, file_path. cbn [fs extracted_files signals emit].
  by rewrite Hsplit.
Qed.

(** The loop body always ends, and keeps every path with its content. *)
Lemma extract_record_total output_dir i file_data st :
  is_Some (step output_dir i file_data st).
Proof.
  unfold extract_record.
  destruct (extract_file_data loads file_data) as [[metadata content]|];
    [|eauto].
  destruct (save_file_total output_dir metadata content st) as [[st'|e] ->];
    eauto.
Qed.

Lemma extract_record_frame output_dir i file_data st st' :
  step output_dir i file_data st = Some st' ->
  fs st ⊆ fs st'.
Proof.
  unfold extract_record.
  destruct (extract_file_data loads file_data) as [[metadata content]|].
  - destruct (save _ _ _ _) as [[st1|e]|] eqn:Hsave; [| |done].
    + intros [= <-].
      apply save_file_Ok in Hsave as (_ & file_path & _ & Hnone & -> & _).
      by apply insert_subseteq.
    + by intros [= <-].
  - by intros [= <-].
Qed.

Lemma unpack_loop_total output_dir data indices offset st :
  is_Some (loop output_dir data indices offset st).
Proof.
  revert offset st. induction indices as [|i indices IH]; intros offset st;
    cbn [unpack_loop]; [eauto|].
  destruct (_ <=? _); [eauto|].
  destruct (extract_record_total output_dir i
              (slice data (offset + 4)
                 (offset + 4 + from_bytes (slice data offset (offset + 4)))) st)
    as [st' ->].
  apply IH.
Qed.

Lemma unpack_loop_frame output_dir data indices offset st st' :
  loop output_dir data indices offset st = Some st' ->
  fs st ⊆ fs st'.
Proof.
  revert offset st. induction indices as [|i indices IH]; intros offset st;
    cbn [unpack_loop].
  - by intros [= <-].
  - destruct (_ <=? _); [by intros [= <-]|].
    destruct (step _ _ _ _) as [st1|] eqn:Hrec; [|done].
    cbn [mbind option_bind]. intros Hloop.
    apply extract_record_frame in Hrec. apply IH in Hloop. by etrans.
Qed.

(** The end of a run: the count of the extracted files as a status line,
    and the success signal with their paths. *)
Definition finish (st : worker) : worker :=
  emit (finished_signal true (String.concat newline (extracted_files st)))
    (emit (status_signal
             (Successfully_extracted (length (extracted_files st)))) st).

(** The loop body on a list of records, one after the other, numbered
    from [i]. *)
Fixpoint run_records (output_dir : string) (i : nat) (records : list bytes)
    (st : worker) : option worker :=
  match records with
  | [] => Some st
  | file_data :: records' =>
      st ← step output_dir i file_data st;
      run_records output_dir (S i) records' st
  end.

(** The rest of the loop body on a list of unpacked records. *)
Fixpoint save_tuples (output_dir : string) (i : nat)
    (tuples : list (json * bytes)) (st : worker) : option worker :=
  match tuples with
  | [] => Some st
  | (metadata, content) :: tuples' =>
      match save output_dir metadata content st with
      | None => None
      | Some (Ok st') => save_tuples output_dir (S i) tuples' st'
      | Some (Raise e) =>
          save_tuples output_dir (S i) tuples'
            (emit (status_signal (Error_extracting_file (i + 1) e)) st)
      end
  end.

Lemma run_records_total output_dir i records st :
  is_Some (run_records output_dir i records st).
Proof.
  revert i st. induction records as [|r records IH]; intros i st; simpl;
    [eauto|].
  destruct (extract_record_total output_dir i r st) as [st' ->]. apply IH.
Qed.

Lemma run_records_app output_dir i records1 records2 st st1 :
  run_records output_dir i records1 st = Some st1 ->
  run_records output_dir i (records1 ++ records2) st
  = run_records output_dir (i + length records1) records2 st1.
Proof.
  revert i st. induction records1 as [|r records1 IH]; intros i st; simpl.
  - intros [= <-]. by rewrite Nat.add_0_r.
  - destruct (step output_dir i r st) as [st'|]; [|done].
    cbn [mbind option_bind]. intros Hrec.
    rewrite (IH _ _ Hrec). by rewrite Nat.add_succ_r.
Qed.

Lemma run_records_tuples output_dir i records tuples st :
  Forall2 (fun record tuple => extract_file_data loads record = Ok tuple)
          records tuples ->
  run_records output_dir i records st = save_tuples output_dir i tuples st.
Proof.
  intros Hall. revert i st.
  induction Hall as [|r [metadata content] records tuples Hr _ IH];
    intros i st; [done|].
  cbn [run_records save_tuples]. unfold extract_record. rewrite Hr.
  destruct (save _ _ _ _) as [[st'|e]|]; cbn [mbind option_bind]; [|  |done];
    apply IH.
Qed.

(** On a buffer that ends with the blocks of [records], from the offset of
    the first block and with as many turns left as there are records, or
    more, the loop runs its body on the records, in order, and stops. *)
Lemma unpack_loop_blocks output_dir records pre i m st :
  Forall (fun data => fits4 (length data)) records ->
  length records <= m ->
  loop output_dir (pre ++ blocks records) (seq i m) (length pre) st
  = run_records output_dir i records st.
Proof.
  intros Hfit. revert pre i m st.
  induction Hfit as [|r records Hr _ IH]; intros pre i m st Hm.
  - destruct m as [|m]; [done|]. cbn [seq unpack_loop run_records].
    unfold blocks. cbn [mbind list_bind]. rewrite app_nil_r.
    by rewrite Nat.leb_refl.
  - destruct m as [|m]; [simpl in Hm; lia|].
    cbn [seq unpack_loop run_records]. rewrite blocks_cons.
    replace (length (pre ++ _) <=? length pre) with false.
    2:{ symmetry. apply Nat.leb_gt. rewrite !length_app, size4_length. lia. }
    unfold slice.
    rewrite drop_app_length.
    replace (length pre + 4 - length pre) with (length (size4 (length r)))
      by (rewrite size4_length; lia).
    rewrite take_app_length, from_bytes_size4 by done.
    replace (length pre + 4) with (length (pre ++ size4 (length r)))
      by (rewrite length_app, size4_length; lia).
    rewrite (app_assoc pre), drop_app_length.
    replace (length (pre ++ size4 (length r)) + length r
             - length (pre ++ size4 (length r))) with (length r) by lia.
    rewrite take_app_length.
    destruct (step output_dir i r st) as [st'|]; [|done].
    cbn [mbind option_bind].
    replace (length (pre ++ size4 (length r)) + length r)
      with (length ((pre ++ size4 (length r)) ++ r))
      by (by rewrite length_app).
    rewrite (app_assoc _ r). apply IH. simpl in Hm. lia.
Qed.

(** The run on a buffer made of a count and the blocks of [records], where
    the count is the number of the records or more. *)
Lemma unpack_files_blocks output_dir records count st :
  fits4 count ->
  Forall (fun data => fits4 (length data)) records ->
  length records <= count ->
  unpack output_dir (size4 count ++ blocks records) st
  = finish <$> run_records output_dir 0 records
                 (emit (status_signal (Found_hidden_files count)) st).
Proof.
  intros Hcount Hfit Hle. unfold unpack_files.
  rewrite take_app_length' by done. rewrite from_bytes_size4 by done.
  rewrite (unpack_loop_blocks output_dir records (size4 count) 0 count)
    by done.
  by destruct (run_records _ _ _ _).
Qed.

Lemma save_tuples_total output_dir i tuples st :
  is_Some (save_tuples output_dir i tuples st).
Proof.
  revert i st.
  induction tuples as [|[metadata content] tuples IH]; intros i st; simpl;
    [eauto|].
  destruct (save_file_total output_dir metadata content st) as [[st'|e] ->];
    apply IH.
Qed.

Lemma save_tuples_frame output_dir i tuples st st' :
  save_tuples output_dir i tuples st = Some st' -> fs st ⊆ fs st'.
Proof.
  revert i st.
  induction tuples as [|[metadata content] tuples IH]; intros i st; simpl.
  - by intros [= <-].
  - destruct (save _ _ _ _) as [[st1|e]|] eqn:Hsave; [| |done]; intros Hrest.
    + apply save_file_Ok in Hsave as (_ & file_path & _ & Hnone & Hfs & _).
      apply IH in Hrest. etrans; [|done]. rewrite Hfs.
      by apply insert_subseteq.
    + by apply IH in Hrest.
Qed.

(** When every new path can be created, the tuples that name a file are
    all saved: one new path for each, in order, that holds its content at
    the end. *)
Lemma save_tuples_written output_dir i tuples st st' :
  (forall file_path, creatable file_path = true) ->
  Forall (fun tuple => exists filename, filename_of tuple.1 = Ok filename)
         tuples ->
  save_tuples output_dir i tuples st = Some st' ->
  exists paths,
    extracted_files st' = extracted_files st ++ paths /\
    Forall2 (fun file_path tuple => fs st' !! file_path = Some tuple.2)
            paths tuples.
Proof.
  intros Hcreate Hnames. revert i st.
  induction Hnames as [|[metadata content] tuples [filename Hname] _ IH];
    intros i st; simpl.
  - intros [= <-]. exists []. by rewrite app_nil_r.
  - destruct (save _ _ _ _) as [[st1|e]|] eqn:Hsave; [| |done].
    + intros Hrest.
      apply save_file_Ok in Hsave
        as (_ & file_path & _ & Hnone & Hfs & Hfiles & _).
      pose proof (save_tuples_frame _ _ _ _ _ Hrest) as Hsub.
      apply IH in Hrest as (paths & Hpaths & Hall).
      exists (file_path :: paths). split.
      * by rewrite Hpaths, Hfiles, <- app_assoc.
      * constructor; [|done]. apply (lookup_weaken (fs st1)); [|done].
        rewrite Hfs. apply lookup_insert_eq.
    + exfalso. unfold save_file in Hsave. simpl in Hname. rewrite Hname in Hsave.
      destruct (splitext _) as [base ext].
      destruct (unique_path _ _ _ _ _ _); [|done].
      by rewrite Hcreate in Hsave.
Qed.

End WorkerFacts.

(** *** The claims on the archive *)

(** An input file of [_hide_files]: its base name, the time it is prepared
    at, and its content. *)
Record input_file : Type := mk_input_file {
  file_name : string;
  file_time : string;
  file_content : bytes
}.

(** The metadata and content that unpacking the record of a file is to
    give. *)
Definition tuple_of (file : input_file) : json * bytes :=
  (metadata_of (file_name file) (length (file_content file)) (file_time file),
   file_content file).

Section WorkerClaims.
Variable dumps : json -> bytes.
Variable loads : bytes -> result json.
Variable path_join : string -> string -> string.
Variable splitext : string -> string * string.
Variable basename : string -> string.
Variable creatable : string -> bool.

#[local] Abbreviation save := (save_file path_join splitext basename creatable).
#[local] Abbreviation unpack :=
  (unpack_files loads path_join splitext basename creatable).
#[local] Abbreviation records_run :=
  (run_records loads path_join splitext basename creatable).
#[local] Abbreviation tuples_run :=
  (save_tuples path_join splitext basename creatable).

(** The contract of the library: [json.loads] reads the metadata that
    [json.dumps] wrote. *)
Definition loads_dumps : Prop :=
  forall filename size timestamp,
    loads (dumps (metadata_of filename size timestamp))
    = Ok (metadata_of filename size timestamp).

(** The records of the files, as [prepare_file_data] builds them. *)
Definition prepared (files : list input_file) (records : list bytes) : Prop :=
  Forall2 (fun file record =>
             prepare_file_data dumps (file_name file) (file_time file)
               (file_content file) = Ok record)
          files records.

Lemma prepared_tuples files records :
  loads_dumps -> prepared files records ->
  Forall2 (fun record tuple => extract_file_data loads record = Ok tuple)
          records (tuple_of <$> files).
Proof.
  intros Hjson Hprep.
  induction Hprep as [|file record files records Hrec _ IH]; simpl;
    constructor; [|done].
  by apply (extract_file_data_prepare dumps).
Qed.

(** The run on a count and the blocks of the records of [files]: their
    tuples are saved, in order, and the run ends. *)
Lemma unpack_prepared output_dir files records count st :
  loads_dumps ->
  prepared files records ->
  Forall (fun data => fits4 (length data)) records ->
  fits4 count ->
  length records <= count ->
  unpack output_dir (size4 count ++ blocks records) st
  = finish <$> tuples_run output_dir 0 (tuple_of <$> files)
                 (emit (status_signal (Found_hidden_files count)) st).
Proof.
  intros Hjson Hprep Hfit Hcount Hle.
  rewrite unpack_files_blocks by done.
  by rewrite (run_records_tuples _ _ _ _ _ _ _ _ (tuple_of <$> files))
    by (by apply prepared_tuples).
Qed.

(** C7. The archive packed from the records of [k] files is the count
    [k] in four bytes, then every record after its size in four bytes, in
    the order given. Unpacking gives a (metadata, content) tuple for every
    record, [k] in all, and they are those of the files, in the order of
    the files; the run hands exactly these tuples to the saving of the
    files, in that order, and reports success. *)
Theorem archive_batch output_dir files records archive st :
  loads_dumps ->
  prepared files records ->
  pack_files records = Ok archive ->
  archive = size4 (length files) ++ blocks records /\
  Forall2 (fun record tuple => extract_file_data loads record = Ok tuple)
          records (tuple_of <$> files) /\
  exists st',
    tuples_run output_dir 0 (tuple_of <$> files)
      (emit (status_signal (Found_hidden_files (length files))) st) = Some st' /\
    unpack output_dir archive st = Some (finish st').
Proof.
  intros Hjson Hprep Hpack.
  apply pack_files_Ok in Hpack as (Hcount & Hfit & ->).
  pose proof (Forall2_length _ _ _ Hprep) as Hlen.
  pose proof (prepared_tuples files records Hjson Hprep) as Htuples.
  split; [by rewrite Hlen|]. split; [done|].
  destruct (save_tuples_total path_join splitext basename creatable
              output_dir 0 (tuple_of <$> files)
              (emit (status_signal (Found_hidden_files (length files))) st))
    as [st' Hst'].
  exists st'. split; [done|].
  rewrite (unpack_prepared output_dir files) by (done || lia).
  by rewrite <- Hlen, Hst'.
Qed.

(** C8. A buffer whose count [count] declares more records than the
    blocks that follow it hold: the run unpacks the records that are there,
    hands their tuples to the saving of the files, leaves the loop when the
    offset reaches the end of the buffer, and reports success. *)
Theorem archive_truncated output_dir files records count st :
  loads_dumps ->
  prepared files records ->
  Forall (fun data => fits4 (length data)) records ->
  fits4 count ->
  length records < count ->
  Forall2 (fun record tuple => extract_file_data loads record = Ok tuple)
          records (tuple_of <$> files) /\
  exists st',
    tuples_run output_dir 0 (tuple_of <$> files)
      (emit (status_signal (Found_hidden_files count)) st) = Some st' /\
    unpack output_dir (size4 count ++ blocks records) st = Some (finish st').
Proof.
  intros Hjson Hprep Hfit Hcount Hlt.
  pose proof (prepared_tuples files records Hjson Hprep) as Htuples.
  split; [done|].
  destruct (save_tuples_total path_join splitext basename creatable
              output_dir 0 (tuple_of <$> files)
              (emit (status_signal (Found_hidden_files count)) st))
    as [st' Hst'].
  exists st'. split; [done|].
  rewrite (unpack_prepared output_dir files) by (done || lia).
  by rewrite Hst'.
Qed.

(** The exception that the [try] block raises on the record [file_data]
    in the state [st], if it raises one: in unpacking the record, or in
    saving the file. *)
Definition record_fails (output_dir : string) (file_data : bytes) (st : worker)
    : option exn :=
  match extract_file_data loads file_data with
  | Raise e => Some e
  | Ok (metadata, content) =>
      match save output_dir metadata content st with
      | Some (Raise e) => Some e
      | _ => None
      end
  end.

(** C9. An archive of the records [before], then [bad], then [after],
    where the [try] block raises [e] on [bad]: the exception is caught, the
    run only adds the status line of the error for that record, goes on
    with the records [after], and ends with the signal of success, which
    carries the paths of the files that were extracted. *)
Theorem archive_partial_failure output_dir before bad after archive e st st1 :
  pack_files (before ++ bad :: after) = Ok archive ->
  records_run output_dir 0 before
    (emit (status_signal (Found_hidden_files (length (before ++ bad :: after))))
       st) = Some st1 ->
  record_fails output_dir bad st1 = Some e ->
  exists st2,
    records_run output_dir (S (length before)) after
      (emit (status_signal (Error_extracting_file (length before + 1) e)) st1)
      = Some st2 /\
    unpack output_dir archive st = Some (finish st2) /\
    last (signals (finish st2))
    = Some (finished_signal true
              (String.concat newline (extracted_files st2))).
Proof.
  intros Hpack Hbefore Hbad.
  apply pack_files_Ok in Hpack as (Hcount & Hfit & ->).
  destruct (run_records_total loads path_join splitext basename creatable
              output_dir (S (length before)) after
              (emit (status_signal
                       (Error_extracting_file (length before + 1) e)) st1))
    as [st2 Hafter].
  exists st2. split; [done|]. split.
  - rewrite unpack_files_blocks by done.
    rewrite (run_records_app _ _ _ _ _ _ _ _ _ _ _ Hbefore).
    cbn [Nat.add run_records].
    unfold record_fails in Hbad. unfold extract_record.
    destruct (extract_file_data loads bad) as [[metadata content]|e'].
    + destruct (save _ _ _ _) as [[?|e']|]; try done.
      injection Hbad as ->. cbn [mbind option_bind]. by rewrite Hafter.
    + injection Hbad as ->. cbn [mbind option_bind]. by rewrite Hafter.
  - unfold finish, emit. cbn [signals]. by rewrite last_snoc.
Qed.

(** C10. A file that is saved goes to a path that did not exist: the path
    asked for or, when that one exists, the first of the names
    [base_1], [base_2], ... with the extension, that is not taken. So a run
    of the unpacking, on any data, ends, and every path that existed before
    it has the content it had. *)
Theorem extract_never_overwrites :
  (forall output_dir metadata content st st',
     save output_dir metadata content st = Some (Ok st') ->
     exists filename file_path,
       filename_of metadata = Ok filename /\
       fs st !! file_path = None /\
       fs st' = <[file_path := content]> (fs st) /\
       let target := path_join output_dir filename in
       (file_path = target \/
        is_Some (fs st !! target) /\
        exists c, 1 <= c /\
          file_path = numbered (splitext target).1 (splitext target).2 c /\
          forall c', 1 <= c' < c ->
            is_Some (fs st !! numbered (splitext target).1
                                       (splitext target).2 c'))) /\
  (forall output_dir data st,
     exists st',
       unpack output_dir data st = Some st' /\
       forall file_path content,
         fs st !! file_path = Some content ->
         fs st' !! file_path = Some content).
Proof.
  split.
  - intros output_dir metadata content st st' Hsave.
    apply save_file_Ok in Hsave
      as (filename & file_path & Hname & Hnone & Hfs & _ & _ & Hshape).
    by exists filename, file_path.
  - intros output_dir data st. unfold unpack_files.
    destruct (unpack_loop_total loads path_join splitext basename creatable
                output_dir data (seq 0 (from_bytes (take 4 data))) 4
                (emit (status_signal
                         (Found_hidden_files (from_bytes (take 4 data)))) st))
      as [st1 Hloop].
    rewrite Hloop. eexists. split; [done|].
    apply unpack_loop_frame in Hloop. cbn [fs emit] in *.
    intros file_path content Hsome.
    by apply (lookup_weaken _ _ _ _ Hsome).
Qed.

(** X3. Unpacking the record that [prepare_file_data] builds for a file
    gives the metadata of the file (its base name, the size of its content
    and the time) and its content. *)
Theorem file_record_round_trip file record :
  loads_dumps ->
  prepare_file_data dumps (file_name file) (file_time file)
    (file_content file) = Ok record ->
  extract_file_data loads record = Ok (tuple_of file).
Proof. intros Hjson. by apply (extract_file_data_prepare dumps). Qed.

(** X4. When every new path can be created, the run on the archive packed
    from the records of [k] files writes [k] files, and at the end the
    [i]-th new path of [extracted_files] holds the content of the [i]-th
    file. *)
Theorem archive_files_written output_dir files records archive st :
  loads_dumps ->
  prepared files records ->
  pack_files records = Ok archive ->
  (forall file_path, creatable file_path = true) ->
  exists st' paths,
    unpack output_dir archive st = Some (finish st') /\
    extracted_files st' = extracted_files st ++ paths /\
    Forall2 (fun file_path file =>
               fs (finish st') !! file_path = Some (file_content file))
            paths files.
Proof.
  intros Hjson Hprep Hpack Hcreate.
  apply pack_files_Ok in Hpack as (Hcount & Hfit & ->).
  rewrite (unpack_prepared output_dir files) by done.
  destruct (save_tuples_total path_join splitext basename creatable
              output_dir 0 (tuple_of <$> files)
              (emit (status_signal (Found_hidden_files (length records))) st))
    as [st' Hst'].
  rewrite Hst'.
  apply save_tuples_written in Hst' as (paths & Hpaths & Hall); [|done|].
  - exists st', paths. split; [done|]. split; [done|].
    by apply Forall2_fmap_r in Hall.
  - apply Forall_fmap, Forall_forall. intros file _. unfold tuple_of.
    cbn [fst]. by eexists.
Qed.

End WorkerClaims.

(** A stand-in for the library calls of the worker, to run it on: the
    metadata is written as one number, paths are joined with a slash, the
    extension is what follows the last dot of a path, and every new path
    can be created. *)
Module ToyWorker.

Definition dumps (metadata : json) : bytes :=
  match metadata with
  | JDict [(_, JStr filename); (_, JInt size); (_, JStr timestamp)] =>
      [Z.pos (encode (filename, size, timestamp))]
  | _ => []
  end.

Definition loads (metadata_bytes : bytes) : result json :=
  match metadata_bytes with
  | [Z.pos p] =>
      match decode p with
      | Some (filename, size, timestamp) =>
          Ok (JDict [("filename", JStr filename); ("size", JInt size);
                     ("timestamp", JStr timestamp)])
      | None => Raise JSONDecodeError
      end
  | _ => Raise JSONDecodeError
  end.

Definition path_join (output_dir filename : string) : string :=
  output_dir +:+ "/" +:+ filename.

Fixpoint split_last_dot (s : string) : option (string * string) :=
  match s with
  | EmptyString => None
  | String a s' =>
      match split_last_dot s' with
      | Some (base, ext) => Some (String a base, ext)
      | None =>
          if String.eqb (String a EmptyString) "." then Some (EmptyString, s)
          else None
      end
  end.

Definition splitext (file_path : string) : string * string :=
  match split_last_dot file_path with
  | Some (base, ext) => (base, ext)
  | None => (file_path, EmptyString)
  end.

Definition basename (file_path : string) : string := file_path.

Definition creatable (file_path : string) : bool := true.

Lemma loads_dumps filename size timestamp :
  loads (dumps (metadata_of filename size timestamp))
  = Ok (metadata_of filename size timestamp).
Proof. unfold metadata_of, dumps, loads. by rewrite decode_encode. Qed.

(** Two files, and an output directory where [a.txt] is taken. *)
Definition file_a : input_file := mk_input_file "a.txt" "t0" [1; 2; 3]%Z.
Definition file_b : input_file := mk_input_file "a.txt" "t1" [4; 5]%Z.

Definition record_of (file : input_file) : bytes :=
  let metadata_bytes :=
    dumps (metadata_of (file_name file) (length (file_content file))
             (file_time file)) in
  size4 (length metadata_bytes) ++ metadata_bytes ++ file_content file.

Definition st0 : worker :=
  mk_worker {["out/a.txt" := [9%Z]]} [] [].

(** A record whose metadata is not JSON. *)
Definition bad_record : bytes := [0; 0; 0; 1; 0]%Z.

(** The state after the record of [file_a] is unpacked in [st0], in
    a run on three records. *)
Definition st1 : worker :=
  mk_worker (<["out/a_1.txt" := [1; 2; 3]%Z]> {["out/a.txt" := [9%Z]]})
            ["out/a_1.txt"]
            [status_signal (Found_hidden_files 3);
             status_signal (Extracted "out/a_1.txt")].

Lemma prepared_a_b :
  prepared dumps [file_a; file_b] [record_of file_a; record_of file_b].
Proof. repeat constructor. Qed.

End ToyWorker.

Lemma archive_batch_witness :
  exists st',
    save_tuples ToyWorker.path_join ToyWorker.splitext ToyWorker.basename
      ToyWorker.creatable "out" 0
      (tuple_of <$> [ToyWorker.file_a; ToyWorker.file_b])
      (emit (status_signal (Found_hidden_files 2)) ToyWorker.st0) = Some st' /\
    unpack_files ToyWorker.loads ToyWorker.path_join ToyWorker.splitext
      ToyWorker.basename ToyWorker.creatable "out"
      (size4 2 ++ blocks [ToyWorker.record_of ToyWorker.file_a;
                          ToyWorker.record_of ToyWorker.file_b])
      ToyWorker.st0 = Some (finish st').
Proof.
  destruct (archive_batch ToyWorker.dumps ToyWorker.loads ToyWorker.path_join
              ToyWorker.splitext ToyWorker.basename ToyWorker.creatable
              "out" [ToyWorker.file_a; ToyWorker.file_b]
              [ToyWorker.record_of ToyWorker.file_a;
               ToyWorker.record_of ToyWorker.file_b]
              (size4 2 ++ blocks [ToyWorker.record_of ToyWorker.file_a;
                                  ToyWorker.record_of ToyWorker.file_b])
              ToyWorker.st0 ToyWorker.loads_dumps ToyWorker.prepared_a_b)
    as (_ & _ & st' & Hsave & Hrun).
  - vm_compute. reflexivity.
  - exists st'. split; [exact Hsave|exact Hrun].
Defined.

Lemma archive_truncated_witness :
  exists st',
    save_tuples ToyWorker.path_join ToyWorker.splitext ToyWorker.basename
      ToyWorker.creatable "out" 0
      (tuple_of <$> [ToyWorker.file_a; ToyWorker.file_b])
      (emit (status_signal (Found_hidden_files 5)) ToyWorker.st0) = Some st' /\
    unpack_files ToyWorker.loads ToyWorker.path_join ToyWorker.splitext
      ToyWorker.basename ToyWorker.creatable "out"
      (size4 5 ++ blocks [ToyWorker.record_of ToyWorker.file_a;
                          ToyWorker.record_of ToyWorker.file_b])
      ToyWorker.st0 = Some (finish st').
Proof.
  destruct (archive_truncated ToyWorker.dumps ToyWorker.loads
              ToyWorker.path_join ToyWorker.splitext ToyWorker.basename
              ToyWorker.creatable
              "out" [ToyWorker.file_a; ToyWorker.file_b]
              [ToyWorker.record_of ToyWorker.file_a;
               ToyWorker.record_of ToyWorker.file_b]
              5 ToyWorker.st0 ToyWorker.loads_dumps ToyWorker.prepared_a_b)
    as (_ & st' & Hsave & Hrun).
  - repeat constructor.
  - reflexivity.
  - simpl. lia.
  - exists st'. split; [exact Hsave|exact Hrun].
Defined.

Lemma archive_partial_failure_witness :
  exists st2,
    run_records ToyWorker.loads ToyWorker.path_join ToyWorker.splitext
      ToyWorker.basename ToyWorker.creatable "out" 2
      [ToyWorker.record_of ToyWorker.file_b]
      (emit (status_signal
               (Error_extracting_file 2 (ValueError "Invalid metadata format")))
         ToyWorker.st1) = Some st2 /\
    unpack_files ToyWorker.loads ToyWorker.path_join ToyWorker.splitext
      ToyWorker.basename ToyWorker.creatable "out"
      (size4 3 ++ blocks [ToyWorker.record_of ToyWorker.file_a;
                          ToyWorker.bad_record;
                          ToyWorker.record_of ToyWorker.file_b])
      ToyWorker.st0 = Some (finish st2) /\
    extracted_files st2 = ["out/a_1.txt"; "out/a_2.txt"].
Proof.
  destruct (archive_partial_failure ToyWorker.loads ToyWorker.path_join
              ToyWorker.splitext ToyWorker.basename ToyWorker.creatable
              "out" [ToyWorker.record_of ToyWorker.file_a]
              ToyWorker.bad_record [ToyWorker.record_of ToyWorker.file_b]
              (size4 3 ++ blocks [ToyWorker.record_of ToyWorker.file_a;
                                  ToyWorker.bad_record;
                                  ToyWorker.record_of ToyWorker.file_b])
              (ValueError "Invalid metadata format")
              ToyWorker.st0 ToyWorker.st1)
    as (st2 & Hafter & Hrun & _).
  - vm_compute. reflexivity.
  - vm_compute. reflexivity.
  - vm_compute. reflexivity.
  - exists st2. split; [exact Hafter|]. split; [exact Hrun|].
    cbn [length app Nat.add] in Hafter.
    assert (Hst2 : Some st2 = Some
      (mk_worker (<["out/a_2.txt" := [4; 5]%Z]> (fs ToyWorker.st1))
         ["out/a_1.txt"; "out/a_2.txt"]
         (signals ToyWorker.st1
          ++ [status_signal
                (Error_extracting_file 2 (ValueError "Invalid metadata format"));
              status_signal (Extracted "out/a_2.txt")]))).
    { rewrite <- Hafter. vm_compute. reflexivity. }
    injection Hst2 as ->. reflexivity.
Defined.

Lemma extract_never_overwrites_witness :
  exists st',
    unpack_files ToyWorker.loads ToyWorker.path_join ToyWorker.splitext
      ToyWorker.basename ToyWorker.creatable "out"
      (size4 2 ++ blocks [ToyWorker.record_of ToyWorker.file_a;
                          ToyWorker.record_of ToyWorker.file_b])
      ToyWorker.st0 = Some st' /\
    fs st' !! "out/a.txt" = Some [9%Z].
Proof.
  destruct (proj2 (extract_never_overwrites ToyWorker.loads
                     ToyWorker.path_join ToyWorker.splitext
                     ToyWorker.basename ToyWorker.creatable)
              "out"
              (size4 2 ++ blocks [ToyWorker.record_of ToyWorker.file_a;
                                  ToyWorker.record_of ToyWorker.file_b])
              ToyWorker.st0)
    as (st' & Hrun & Hframe).
  exists st'. split; [exact Hrun|]. apply Hframe. reflexivity.
Defined.

Lemma file_record_round_trip_witness :
  extract_file_data ToyWorker.loads (ToyWorker.record_of ToyWorker.file_a)
  = Ok (tuple_of ToyWorker.file_a).
Proof.
  apply (file_record_round_trip ToyWorker.dumps ToyWorker.loads).
  - exact ToyWorker.loads_dumps.
  - reflexivity.
Defined.

Lemma archive_files_written_witness :
  exists st' paths,
    unpack_files ToyWorker.loads ToyWorker.path_join ToyWorker.splitext
      ToyWorker.basename ToyWorker.creatable "out"
      (size4 2 ++ blocks [ToyWorker.record_of ToyWorker.file_a;
                          ToyWorker.record_of ToyWorker.file_b])
      ToyWorker.st0 = Some (finish st') /\
    extracted_files st' = extracted_files ToyWorker.st0 ++ paths /\
    Forall2 (fun file_path file =>
               fs (finish st') !! file_path = Some (file_content file))
            paths [ToyWorker.file_a; ToyWorker.file_b].
Proof.
  apply (archive_files_written ToyWorker.dumps ToyWorker.loads
           ToyWorker.path_join ToyWorker.splitext ToyWorker.basename
           ToyWorker.creatable "out" [ToyWorker.file_a; ToyWorker.file_b]
           [ToyWorker.record_of ToyWorker.file_a;
            ToyWorker.record_of ToyWorker.file_b]).
  - exact ToyWorker.loads_dumps.
  - exact ToyWorker.prepared_a_b.
  - vm_compute. reflexivity.
  - reflexivity.
Defined.

(** ** More on the LSB codec *)

Module LSBMore.
Import LSB LSBFacts.

(** Stamping the same bits again changes nothing. *)
Lemma stamp_stamp bits pixels :
  Forall bit bits -> stamp bits (stamp bits pixels) = stamp bits pixels.
Proof.
  intros Hb. revert pixels.
  induction Hb as [|b bits Hb _ IH]; intros pixels.
  - by rewrite !stamp_nil_l.
  - destruct pixels as [|c pixels]; [done|]. simpl. f_equal; [|apply IH].
    rewrite Z.land_lor_distr_l, <- Z.land_assoc.
    change (Z.land 254 254) with 254%Z.
    destruct Hb as [-> | ->]; change (Z.land _ 254) with 0%Z at 2;
      by rewrite Z.lor_0_r.
Qed.

(** The data loop gives one byte for every whole group of eight bits. *)
Lemma data_bytes_loop_map bits acc m :
  8 * m <= length bits ->
  foldl (fun acc i =>
           if i + 8 <=? length bits
           then acc ++ [data_byte bits i]
           else acc)
        acc ((fun q => 8 * q) <$> seq 0 m)
  = acc ++ ((fun q => data_byte bits (8 * q)) <$> seq 0 m).
Proof.
  induction m as [|m IH]; intros Hm.
  - by rewrite app_nil_r.
  - rewrite seq_S, !fmap_app, foldl_app, IH by lia.
    cbn [fmap list_fmap foldl Nat.add].
    replace (8 * m + 8 <=? length bits) with true
      by (symmetry; apply Nat.leb_le; lia).
    by rewrite <- app_assoc.
Qed.

Lemma data_bytes_map bits :
  data_bytes bits
  = (fun q => data_byte bits (8 * q)) <$> seq 0 (length bits / 8).
Proof.
  unfold data_bytes, range8.
  pose proof (Nat.div_mod_eq (length bits) 8) as Hdm.
  pose proof (Nat.mod_upper_bound (length bits) 8 ltac:(done)) as Hlt.
  destruct (decide (length bits mod 8 = 0)) as [H0|H0].
  - replace ((length bits + 7) / 8) with (length bits / 8).
    + apply (data_bytes_loop_map bits []). lia.
    + apply (Nat.div_unique _ _ _ 7); lia.
  - replace ((length bits + 7) / 8) with (S (length bits / 8)).
    + rewrite seq_S, fmap_app, foldl_app.
      cbn [fmap list_fmap foldl Nat.add].
      rewrite (data_bytes_loop_map bits []) by lia.
      replace (_ <=? _) with false; [done|].
      symmetry. apply Nat.leb_gt. lia.
    + apply (Nat.div_unique _ _ _ (length bits mod 8 - 1)); lia.
Qed.

Lemma data_bytes_length bits : length (data_bytes bits) = length bits / 8.
Proof. by rewrite data_bytes_map, length_fmap, length_seq. Qed.

(** Eight bits make a byte. *)
Lemma data_byte_ok bits i :
  Forall bit bits -> i + 8 <= length bits ->
  byte_ok (data_byte bits i) = true.
Proof.
  intros Hb Hi. unfold data_byte. cbn [seq foldl].
  assert (Hj : forall j, j < 8 -> bit (bits !!! (i + j))).
  { intros j Hj. rewrite Forall_lookup in Hb.
    destruct (lookup_lt_is_Some_2 bits (i + j)) as [b Hbj]; [lia|].
    rewrite (list_lookup_total_correct _ _ _ Hbj). by apply (Hb (i + j)). }
  destruct (Hj 0 ltac:(lia)) as [-> | ->];
  destruct (Hj 1 ltac:(lia)) as [-> | ->];
  destruct (Hj 2 ltac:(lia)) as [-> | ->];
  destruct (Hj 3 ltac:(lia)) as [-> | ->];
  destruct (Hj 4 ltac:(lia)) as [-> | ->];
  destruct (Hj 5 ltac:(lia)) as [-> | ->];
  destruct (Hj 6 ltac:(lia)) as [-> | ->];
  destruct (Hj 7 ltac:(lia)) as [-> | ->]; reflexivity.
Qed.

Lemma data_bytes_ok bits : Forall bit bits -> bytes_ok (data_bytes bits) = true.
Proof.
  intros Hb. rewrite data_bytes_map. unfold bytes_ok.
  apply forallb_forall. intros b Hin. apply in_map_iff in Hin as (q & <- & Hq).
  apply in_seq in Hq. apply data_byte_ok; [done|].
  pose proof (Nat.Div0.mul_div_le (length bits) 8). lia.
Qed.

Lemma lsbs_bit pixels : Forall bit (lsbs pixels).
Proof.
  unfold lsbs. apply Forall_fmap, Forall_forall. intros c _. apply land_1_bit.
Qed.






(** X8. [extract_data_from_image] reads nothing but the least significant
    bits: two pixel arrays of the same shape whose channels agree on that
    bit give the same bytes, whatever their other seven bits are. *)
Theorem extract_data_from_image_lsbs px1 px2 :
  shape0 px1 = shape0 px2 -> shape1 px1 = shape1 px2 ->
  length (buf px1) = shape0 px1 * shape1 px1 * 3 ->
  lsbs (buf px1) = lsbs (buf px2) ->
  extract_data_from_image px1 = extract_data_from_image px2.
Proof.
  intros H0 H1 Hlen Hlsb.
  assert (Hlen2 : length (buf px2) = shape0 px2 * shape1 px2 * 3).
  { rewrite <- H0, <- H1, <- Hlen.
    by rewrite <- (lsbs_length (buf px2)), <- Hlsb, lsbs_length. }
  rewrite !extract_data_from_image_spec by done.
  unfold total_bits_needed. by rewrite Hlsb.
Qed.

(** The 4 x 4 image of [LSBClaims.img_4x4] with every channel raised
    by 200, an even number. *)
Definition img_4x4_bright : ndarray :=
  mk_ndarray 4 4 ((fun c => c + 200)%Z <$> buf LSBClaims.img_4x4).

Lemma extract_data_from_image_lsbs_witness :
  extract_data_from_image LSBClaims.img_4x4
  = extract_data_from_image img_4x4_bright.
Proof.
  apply extract_data_from_image_lsbs; vm_compute; reflexivity.
Defined.

(** X9. The bytes that [extract_data_from_image] returns are bytes, and
    there are as many as the size [n] decoded from the first 32 bits says,
    or as many as the bits of the grid after the first 32 make, if those
    are fewer: a size that the image cannot hold is never believed. *)
Theorem extract_data_from_image_length px data :
  length (buf px) = shape0 px * shape1 px * 3 ->
  extract_data_from_image px = Some data ->
  bytes_ok data = true /\
  length data
  = from_bytes (size_bytes (take 32 (lsbs (buf px))))
    `min` ((length (buf px) - 32) / 8).
Proof.
  intros Hlen. rewrite extract_data_from_image_spec by done. intros [= <-].
  split.
  - apply data_bytes_ok. unfold slice.
    apply Forall_take, Forall_drop, lsbs_bit.
  - rewrite data_bytes_length. unfold slice, total_bits_needed.
    rewrite length_take, length_drop, lsbs_length.
    set (n := from_bytes _). set (m := length (buf px) - 32).
    replace (32 + n * 8 - 32) with (n * 8) by lia.
    destruct (decide (n * 8 <= m)) as [Hle|Hgt].
    + rewrite Nat.min_l by done. rewrite Nat.div_mul by done.
      symmetry. apply Nat.min_l. apply Nat.div_le_lower_bound; lia.
    + rewrite Nat.min_r by lia. symmetry. apply Nat.min_r.
      apply Nat.lt_le_incl, Nat.Div0.div_lt_upper_bound; lia.
Qed.

Lemma extract_data_from_image_length_witness :
  exists data,
    extract_data_from_image LSBClaims.img_4x4 = Some data /\
    length data = 3 `min` 2.
Proof.
  eexists. split; [vm_compute; reflexivity|].
  apply (extract_data_from_image_length LSBClaims.img_4x4);
    vm_compute; reflexivity.
Defined.

End LSBMore.

(** ** More on the unpacking *)

(** What a part of a run has written: the new paths in [extracted_files],
    each one once, none of which existed; the paths that exist are those
    that existed and the new ones; what existed is as it was. *)
Definition writes (st st' : worker) (paths : list string) : Prop :=
  extracted_files st' = extracted_files st ++ paths /\
  NoDup paths /\
  Forall (fun file_path => fs st !! file_path = None) paths /\
  dom (fs st') = dom (fs st) ∪ list_to_set paths /\
  fs st ⊆ fs st'.

Lemma writes_nil st st' :
  fs st' = fs st -> extracted_files st' = extracted_files st ->
  writes st st' [].
Proof.
  intros Hfs Hfiles. unfold writes. rewrite Hfs, Hfiles, app_nil_r.
  split; [done|]. split; [apply NoDup_nil_2|]. split; [constructor|].
  split; [set_solver|done].
Qed.

Lemma writes_trans st1 st2 st3 paths1 paths2 :
  writes st1 st2 paths1 -> writes st2 st3 paths2 ->
  writes st1 st3 (paths1 ++ paths2).
Proof.
  intros (Hf1 & Hnd1 & Hnew1 & Hdom1 & Hsub1) (Hf2 & Hnd2 & Hnew2 & Hdom2 & Hsub2).
  assert (Hfresh : forall p, p ∈ paths2 -> p ∉ dom (fs st2)).
  { intros p Hp. rewrite Forall_forall in Hnew2.
    by apply not_elem_of_dom, Hnew2. }
  repeat split.
  - by rewrite Hf2, Hf1, app_assoc.
  - apply NoDup_app. split; [done|]. split; [|done].
    intros p Hp1 Hp2. apply (Hfresh p Hp2). rewrite Hdom1. set_solver.
  - apply Forall_app. split; [done|]. apply Forall_forall. intros p Hp.
    apply not_elem_of_dom. intros Hin. apply (Hfresh p Hp).
    rewrite Hdom1. set_solver.
  - rewrite Hdom2, Hdom1, list_to_set_app_L. set_solver.
  - by etrans.
Qed.

Section WorkerMore.
Variable loads : bytes -> result json.
Variable path_join : string -> string -> string.
Variable splitext : string -> string * string.
Variable basename : string -> string.
Variable creatable : string -> bool.

#[local] Abbreviation save1 :=
  (save_file path_join splitext basename creatable).
#[local] Abbreviation step1 :=
  (extract_record loads path_join splitext basename creatable).
#[local] Abbreviation loop1 :=
  (unpack_loop loads path_join splitext basename creatable).
#[local] Abbreviation unpack1 :=
  (unpack_files loads path_join splitext basename creatable).

Lemma extract_record_writes output_dir i file_data st st' :
  step1 output_dir i file_data st = Some st' ->
  exists paths, writes st st' paths.
Proof.
  unfold extract_record.
  destruct (extract_file_data loads file_data) as [[metadata content]|].
  - destruct (save1 _ _ _ _) as [[st1|e]|] eqn:Hsave; [| |done].
    + intros [= <-].
      apply save_file_Ok in Hsave
        as (_ & file_path & _ & Hnone & Hfs & Hfiles & _).
      exists [file_path]. unfold writes. rewrite Hfs, Hfiles.
      repeat split.
      * apply NoDup_singleton.
      * by constructor.
      * rewrite dom_insert_L. set_solver.
      * by apply insert_subseteq.
    + intros [= <-]. exists []. by apply writes_nil.
  - intros [= <-]. exists []. by apply writes_nil.
Qed.

Lemma unpack_loop_writes output_dir data indices offset st st' :
  loop1 output_dir data indices offset st = Some st' ->
  exists paths, writes st st' paths.
Proof.
  revert offset st. induction indices as [|i indices IH]; intros offset st;
    cbn [unpack_loop].
  - intros [= <-]. exists []. by apply writes_nil.
  - destruct (_ <=? _); [intros [= <-]; exists []; by apply writes_nil|].
    destruct (step1 _ _ _ _) as [st1|] eqn:Hrec; [|done].
    cbn [mbind option_bind]. intros Hloop.
    apply extract_record_writes in Hrec as [paths1 H1].
    apply IH in Hloop as [paths2 H2].
    exists (paths1 ++ paths2). by apply (writes_trans _ st1).
Qed.


End WorkerMore.

(** ** The two runs of the worker *)

Lemma logged_bind_Ok {S A B} (m : logged S A) (k : A -> logged S B) sigs b :
  m ≫= k = (sigs, Ok b) ->
  exists sigs1 a sigs2,
    m = (sigs1, Ok a) /\ k a = (sigs2, Ok b) /\ sigs = sigs1 ++ sigs2.
Proof.
  destruct m as [sigs1 [a|e]]; unfold mbind, logged_bind; [|done].
  destruct (k a) as [sigs2 r] eqn:Hk. intros [= <- ->]. by exists sigs1, a, sigs2.
Qed.

Lemma bytes_ok_replicate n b :
  byte_ok b = true -> bytes_ok (replicate n b) = true.
Proof.
  intros Hb. induction n as [|n IH]; [done|]. simpl.
  apply LSBFacts.bytes_ok_cons. by split.
Qed.

Lemma bytes_ok_size4 n : bytes_ok (size4 n) = true.
Proof.
  unfold size4, bytes_ok, byte_ok. cbn [forallb].
  repeat match goal with
  | |- context [(?a mod 256)%Z] =>
      lazymatch goal with
      | _ : (0 <= a mod 256 < 256)%Z |- _ => fail
      | _ => pose proof (Z.mod_pos_bound a 256 eq_refl)
      end
  end.
  rewrite !andb_true_iff, !Z.leb_le, !Z.ltb_lt. lia.
Qed.

Lemma bytes_ok_blocks records :
  Forall (fun data => bytes_ok data = true) records ->
  bytes_ok (blocks records) = true.
Proof.
  induction 1 as [|data records Hd _ IH]; [done|].
  rewrite blocks_cons, !LSBFacts.bytes_ok_app.
  split; [apply bytes_ok_size4|]. by split.
Qed.

Lemma bytes_ok_pad data :
  bytes_ok data = true -> bytes_ok (Padding.pad data) = true.
Proof.
  intros Hd. destruct (EnvelopeFacts.pad_length data) as (k & Hk & -> & _).
  apply LSBFacts.bytes_ok_app. split; [done|]. apply bytes_ok_replicate.
  apply LSBFacts.byte_ok_spec. lia.
Qed.

(** An archive of fewer than [2 ^ 24] records does not start with the
    marker of the envelope: its first byte is zero. *)
Lemma archive_not_encrypted count rest :
  count < 2 ^ 24 -> startswith (size4 count ++ rest) ENCRYPTION_HEADER = false.
Proof.
  intros Hc. unfold size4. cbn [app startswith ENCRYPTION_HEADER].
  rewrite Z.div_small; [done|]. split; [lia|].
  apply Nat2Z.inj_lt in Hc. rewrite Nat2Z.inj_pow in Hc. exact Hc.
Qed.

Section Envelope2.
Context {cipher : Type}.
Variable pbkdf2_hmac : string -> bytes -> bytes.
Variable AES_new : bytes -> bytes -> result cipher.
Variable encrypt : cipher -> bytes -> result bytes.
Variable decrypt : cipher -> bytes -> result bytes.
Hypothesis decrypt_encrypt :
  forall key iv c m,
    AES_new key iv = Ok c -> length m mod 16 = 0 ->
    exists ct, encrypt c m = Ok ct /\ decrypt c ct = Ok m.

(** The envelope that [encrypt_data] returned: its layout, and what
    [decrypt_data] makes of it with the same password. *)
Lemma encrypt_data_Ok salt iv data password envelope :
  length salt = 16 -> length iv = 16 ->
  encrypt_data pbkdf2_hmac AES_new encrypt salt iv data password
    = Ok envelope ->
  (exists c ct,
     AES_new (pbkdf2_hmac password salt) iv = Ok c /\
     encrypt c (Padding.pad data) = Ok ct /\
     envelope = ENCRYPTION_HEADER ++ salt ++ iv ++ ct) /\
  decrypt_data pbkdf2_hmac AES_new decrypt envelope password = Ok data.
Proof.
  intros Hsalt Hiv. unfold encrypt_data, derive_key.
  destruct (AES_new _ iv) as [c|] eqn:Hc; [|done]. cbn [mbind result_bind].
  destruct (encrypt c _) as [ct|] eqn:Hct; [|done]. intros Henv.
  assert (envelope = ENCRYPTION_HEADER ++ salt ++ iv ++ ct) as ->
    by (by inversion Henv).
  clear Henv. split; [by exists c, ct|].
  destruct (EnvelopeFacts.pad_length data) as (k & _ & Hpad & Hmod).
  destruct (decrypt_encrypt _ _ c (Padding.pad data) Hc) as (ct' & Hct' & Hpt).
  { by rewrite Hpad, length_app, length_replicate. }
  rewrite Hct in Hct'. injection Hct' as <-.
  unfold decrypt_data. rewrite EnvelopeFacts.startswith_app.
  cbn [negb]. rewrite drop_app_length. unfold slice.
  rewrite take_app_length' by done.
  rewrite (drop_app_length' salt _ 16) by done.
  replace (32 - 16) with (length iv) by lia. rewrite take_app_length.
  replace 32 with (length (salt ++ iv)) by (rewrite length_app; lia).
  rewrite (app_assoc salt iv ct), drop_app_length.
  unfold derive_key. rewrite Hc. cbn [mbind result_bind].
  rewrite Hpt. cbn [mbind result_bind].
  by rewrite EnvelopeFacts.unpad_pad.
Qed.
End Envelope2.

Section RunsFacts.
Context {cipher : Type}.
Variable pbkdf2_hmac : string -> bytes -> bytes.
Variable AES_new : bytes -> bytes -> result cipher.
Variable encrypt : cipher -> bytes -> result bytes.
Variable decrypt : cipher -> bytes -> result bytes.
Variable dumps : json -> bytes.
Variable loads : bytes -> result json.
Variable path_join : string -> string -> string.
Variable splitext : string -> string * string.
Variable basename : string -> string.
Variable creatable : string -> bool.

#[local] Abbreviation hide_try :=
  (hide_files_try pbkdf2_hmac AES_new encrypt dumps basename).

(** The files of a run of [_hide_files] as they are read: the base name,
    the time of preparation and the content of each. *)
Fixpoint read_inputs (files : gmap string bytes) (now : nat -> string)
    (i : nat) (file_paths : list string) : list input_file :=
  match file_paths with
  | [] => []
  | file_path :: file_paths' =>
      mk_input_file (basename file_path) (now i)
        (default [] (files !! file_path))
      :: read_inputs files now (S i) file_paths'
  end.

Lemma read_inputs_length files now i file_paths :
  length (read_inputs files now i file_paths) = length file_paths.
Proof.
  revert i. induction file_paths as [|p ps IH]; intros i; simpl; [done|].
  by rewrite IH.
Qed.

(** The loop that prepares the files, when it ends without an exception:
    every file was there, and the records are those of the files read. *)
Lemma prepare_files_Ok files now total i file_paths acc sigs all_files_data :
  prepare_files pbkdf2_hmac AES_new encrypt dumps basename
    files now total i file_paths acc = (sigs, Ok all_files_data) ->
  Forall (fun file_path => is_Some (files !! file_path)) file_paths /\
  exists records,
    all_files_data = acc ++ records /\
    prepared dumps (read_inputs files now i file_paths) records.
Proof.
  revert i acc sigs. induction file_paths as [|p ps IH]; intros i acc sigs.
  - intros [= <- <-]. split; [constructor|]. exists [].
    split; [by rewrite app_nil_r|constructor].
  - cbn [prepare_files]. intros Hrun.
    apply logged_bind_Ok in Hrun as (s1 & [] & s2 & _ & Hrun & ->).
    apply logged_bind_Ok in Hrun as (s3 & record & s4 & Hrec & Hrun & ->).
    apply IH in Hrun as (Hall & records & -> & Hprep).
    unfold lift, prepare_file_data_pw, read_file in Hrec.
    destruct (files !! p) as [content|] eqn:Hp; [|done].
    cbn [mbind result_bind truthy] in Hrec.
    destruct (prepare_file_data dumps (basename p) (now i) content)
      as [record'|] eqn:Hprep1; [|done].
    injection Hrec as <- <-.
    split; [constructor; [by eexists|done]|].
    exists (record' :: records). split; [by rewrite <- app_assoc|].
    cbn [read_inputs]. rewrite Hp. by constructor.
Qed.

(** The other way round: when every file is there and has a record, the
    loop ends with the records. *)
Lemma prepare_files_prepared files now total i file_paths acc records :
  Forall (fun file_path => is_Some (files !! file_path)) file_paths ->
  prepared dumps (read_inputs files now i file_paths) records ->
  exists sigs,
    prepare_files pbkdf2_hmac AES_new encrypt dumps basename
      files now total i file_paths acc = (sigs, Ok (acc ++ records)).
Proof.
  intros Hall. revert i acc records.
  induction Hall as [|p ps [content Hp] _ IH]; intros i acc records Hprep.
  - inversion Hprep; subst. exists []. by rewrite app_nil_r.
  - cbn [read_inputs] in Hprep. rewrite Hp in Hprep.
    inversion Hprep as [|? record ? records' Hrec Hrest]; subst.
    cbn [file_name file_time file_content default] in Hrec.
    destruct (IH (S i) (acc ++ [record]) records' Hrest) as [sigs Hsigs].
    cbn [prepare_files].
    unfold lift, log, prepare_file_data_pw, read_file. rewrite Hp.
    cbn [mbind result_bind truthy]. rewrite Hrec.
    cbn [mbind result_bind logged_bind mret result_ret].
    rewrite Hsigs. rewrite <- app_assoc. by eexists.
Qed.

(** The bytes that [_hide_files] hands to the image: the archive of the
    records, in its envelope when there is a password. *)
Definition payload (password : option string) (salt iv archive combined : bytes)
    : Prop :=
  match truthy password with
  | Some password =>
      encrypt_data pbkdf2_hmac AES_new encrypt salt iv archive password
      = Ok combined
  | None => combined = archive
  end.

(** The [try] block of [_hide_files] on files that are there: it stops at
    the capacity check, or hands the payload to [hide_data_in_image]. *)
Lemma hide_files_try_payload px file_paths password files now salt iv
    records archive combined :
  Forall (fun file_path => is_Some (files !! file_path)) file_paths ->
  prepared dumps (read_inputs files now 0 file_paths) records ->
  pack_files records = Ok archive ->
  payload password salt iv archive combined ->
  exists sigs,
    hide_try px file_paths password files now salt iv =
      if LSB.can_hide_data px (length combined)
      then (sigs ++ [hide_status_signal Hiding_data_in_image],
            Ok (LSB.hide_data_in_image px combined))
      else (sigs, Raise (ValueError
              "The selected image is too small to hide all the data")).
Proof.
  intros Hall Hprep Hpack Hpay.
  destruct (prepare_files_prepared files now (length file_paths) 0 file_paths
              [] records Hall Hprep) as [sigs1 Hsigs1].
  cbn [app] in Hsigs1.
  unfold hide_files_try. rewrite Hsigs1. unfold payload in Hpay.
  unfold lift at 1. cbn [mbind logged_bind]. rewrite Hpack.
  destruct (truthy password) as [pw|].
  - exists (sigs1 ++ [hide_status_signal Encrypting_data]).
    unfold lift, log.
    cbn [mbind result_bind logged_bind mret result_ret logged_ret app].
    rewrite Hpay.
    destruct (LSB.can_hide_data px (length combined)); cbn [negb];
      unfold lift;
      cbn [mbind result_bind logged_bind mret result_ret logged_ret app];
      by rewrite ?app_nil_r, <- ?app_assoc.
  - subst combined. exists sigs1. unfold lift, log.
    cbn [mbind result_bind logged_bind mret result_ret logged_ret app].
    destruct (LSB.can_hide_data px (length archive)); cbn [negb];
      unfold lift;
      cbn [mbind result_bind logged_bind mret result_ret logged_ret app];
      by rewrite ?app_nil_r, <- ?app_assoc.
Qed.


(** A run of [_hide_files] that saved an image: the files were there, and
    the image is what [hide_data_in_image] made of the payload. *)
Lemma hide_files_saved px output_path file_paths password files now salt iv
    sigs saved :
  _hide_files pbkdf2_hmac AES_new encrypt dumps basename px output_path
    file_paths password files now salt iv = (sigs, Some saved) ->
  exists records archive combined,
    Forall (fun file_path => is_Some (files !! file_path)) file_paths /\
    prepared dumps (read_inputs files now 0 file_paths) records /\
    pack_files records = Ok archive /\
    payload password salt iv archive combined /\
    LSB.hide_data_in_image px combined = Some saved.
Proof.
  unfold _hide_files.
  destruct (hide_try _ _ _ _ _ _ _) as [sigs0 [[saved0|]|e]] eqn:Htry; [|done..].
  intros [= _ ->]. unfold hide_files_try in Htry.
  apply logged_bind_Ok in Htry as (s1 & records & s2 & Hprep & Htry & _).
  apply prepare_files_Ok in Hprep as (Hall & records' & -> & Hprep).
  cbn [app] in Htry.
  apply logged_bind_Ok in Htry as (s3 & archive & s4 & Hpack & Htry & _).
  apply logged_bind_Ok in Htry as (s5 & combined & s6 & Hpay & Htry & _).
  exists records', archive, combined. split; [done|]. split; [done|].
  split; [by injection Hpack|]. split.
  - unfold payload. destruct (truthy password) as [pw|].
    + apply logged_bind_Ok in Hpay as (? & [] & ? & _ & Hpay & _).
      by injection Hpay.
    + by injection Hpay.
  - apply logged_bind_Ok in Htry as (? & [] & ? & _ & Htry & _).
    apply logged_bind_Ok in Htry as (? & [] & ? & _ & Htry & _).
    by injection Htry.
Qed.

Lemma read_inputs_bytes_ok files now i file_paths :
  map_Forall (fun _ content => bytes_ok content = true) files ->
  Forall (fun file => bytes_ok (file_content file) = true)
         (read_inputs files now i file_paths).
Proof.
  intros Hfiles. revert i.
  induction file_paths as [|p ps IH]; intros i; cbn [read_inputs];
    constructor; [|done].
  cbn [file_content]. destruct (files !! p) as [content|] eqn:Hp; [|done].
  by apply (Hfiles p).
Qed.

Lemma encrypt_data_layout salt iv data password envelope :
  encrypt_data pbkdf2_hmac AES_new encrypt salt iv data password
    = Ok envelope ->
  exists c ct,
    encrypt c (Padding.pad data) = Ok ct /\
    envelope = ENCRYPTION_HEADER ++ salt ++ iv ++ ct.
Proof.
  unfold encrypt_data, derive_key.
  destruct (AES_new _ iv) as [c|] eqn:Hc; [|done]. cbn [mbind result_bind].
  destruct (encrypt c _) as [ct|] eqn:Hct; [|done]. intros Henv.
  exists c, ct. split; [done|]. by inversion Henv.
Qed.

(** The status lines of the loop that prepares the files. *)
Fixpoint preparing (total i : nat) (file_paths : list string)
    : list hide_signal :=
  match file_paths with
  | [] => []
  | file_path :: file_paths' =>
      hide_status_signal (Preparing_file (i + 1) total (basename file_path))
      :: preparing total (S i) file_paths'
  end.

(** The loop that prepares the files, on a file that is not there: the
    files before it are prepared, and the loop ends with the [OSError] of
    [open]. *)
Lemma prepare_files_missing files now total i before missing after acc records :
  Forall (fun file_path => is_Some (files !! file_path)) before ->
  prepared dumps (read_inputs files now i before) records ->
  files !! missing = None ->
  prepare_files pbkdf2_hmac AES_new encrypt dumps basename
    files now total i (before ++ missing :: after) acc
  = (preparing total i (before ++ [missing]), Raise OSError).
Proof.
  intros Hall. revert i acc records.
  induction Hall as [|p ps [content Hp] _ IH]; intros i acc records Hprep Hmiss.
  - cbn [app prepare_files preparing].
    unfold lift, log, prepare_file_data_pw, read_file. by rewrite Hmiss.
  - cbn [read_inputs] in Hprep. rewrite Hp in Hprep.
    inversion Hprep as [|? record ? records' Hrec Hrest]; subst.
    cbn [file_name file_time file_content default] in Hrec.
    cbn [app prepare_files preparing].
    unfold lift, log, prepare_file_data_pw, read_file. rewrite Hp.
    cbn [mbind result_bind truthy]. rewrite Hrec.
    cbn [mbind result_bind logged_bind mret result_ret].
    by rewrite (IH (S i) (acc ++ [record]) records' Hrest Hmiss).
Qed.

(** X12. A run of [_hide_files] on a list with a file that cannot be read:
    the files before it are prepared, each with its status line, the
    status line of the missing file is the last of them, and the run ends
    with the error of [open]: the image is not touched, whatever its
    size and whatever files follow. *)
Theorem hide_files_missing_file px output_path before missing after password
    files now salt iv records :
  Forall (fun file_path => is_Some (files !! file_path)) before ->
  prepared dumps (read_inputs files now 0 before) records ->
  files !! missing = None ->
  _hide_files pbkdf2_hmac AES_new encrypt dumps basename px output_path
    (before ++ missing :: after) password files now salt iv
  = (preparing (length (before ++ missing :: after)) 0 (before ++ [missing])
       ++ [hide_status_signal (Hide_error OSError);
           hide_finished_error OSError],
     None).
Proof.
  intros Hall Hprep Hmiss. unfold _hide_files, hide_files_try.
  by rewrite (prepare_files_missing files now _ 0 before missing after []
                records Hall Hprep Hmiss).
Qed.


(** The contracts of the libraries, and the types of what they return: the
    cipher object of a key and an IV decrypts what it encrypted;
    [json.loads] reads the metadata that [json.dumps] wrote; the encoded
    metadata and a ciphertext are bytes; every new path can be created. *)
Hypothesis decrypt_encrypt :
  forall key iv c m,
    AES_new key iv = Ok c -> length m mod 16 = 0 ->
    exists ct, encrypt c m = Ok ct /\ decrypt c ct = Ok m.
Hypothesis json_round_trip : loads_dumps dumps loads.
Hypothesis dumps_bytes : forall metadata, bytes_ok (dumps metadata) = true.
Hypothesis encrypt_bytes :
  forall c m ct,
    bytes_ok m = true -> encrypt c m = Ok ct -> bytes_ok ct = true.
Hypothesis every_path_creatable : forall file_path, creatable file_path = true.

Lemma prepared_bytes_ok inputs records :
  prepared dumps inputs records ->
  Forall (fun file => bytes_ok (file_content file) = true) inputs ->
  Forall (fun data => bytes_ok data = true) records.
Proof.
  induction 1 as [|file record inputs records Hrec _ IH]; [done|].
  intros Hok. apply Forall_cons in Hok as [Hfile Hok].
  constructor; [|by apply IH].
  apply (prepare_file_data_Ok dumps) in Hrec as [_ ->].
  rewrite !LSBFacts.bytes_ok_app. split; [apply bytes_ok_size4|]. by split.
Qed.

Lemma payload_bytes_ok password salt iv archive combined :
  bytes_ok salt = true -> bytes_ok iv = true -> bytes_ok archive = true ->
  payload password salt iv archive combined ->
  bytes_ok combined = true.
Proof.
  intros Hsalt Hiv Harch. unfold payload.
  destruct (truthy password) as [pw|]; [|by intros ->].
  intros Henc. apply encrypt_data_layout in Henc as (c & ct & Hct & ->).
  rewrite !LSBFacts.bytes_ok_app. split; [done|]. split; [done|].
  split; [done|]. apply (encrypt_bytes c (Padding.pad archive)); [|done].
  by apply bytes_ok_pad.
Qed.

(** The payload of a run that saved an image is read back from it. *)
Lemma hide_files_saved_extract px output_path file_paths password files now
    salt iv sigs saved :
  length (LSB.buf px) = LSB.shape0 px * LSB.shape1 px * 3 ->
  map_Forall (fun _ content => bytes_ok content = true) files ->
  bytes_ok salt = true -> bytes_ok iv = true ->
  _hide_files pbkdf2_hmac AES_new encrypt dumps basename px output_path
    file_paths password files now salt iv = (sigs, Some saved) ->
  exists records combined,
    prepared dumps (read_inputs files now 0 file_paths) records /\
    Forall (fun file_path => is_Some (files !! file_path)) file_paths /\
    fits4 (length records) /\
    Forall (fun data => fits4 (length data)) records /\
    payload password salt iv (size4 (length records) ++ blocks records)
      combined /\
    LSB.extract_data_from_image saved = Some combined.
Proof.
  intros Hpx Hfiles Hsalt Hiv Hrun.
  apply hide_files_saved in Hrun
    as (records & archive & combined & Hall & Hprep & Hpack & Hpay & Hhide).
  apply pack_files_Ok in Hpack as (Hcount & Hfit & ->).
  exists records, combined. repeat (split; [done|]).
  apply LSBFacts.hide_extract in Hhide; [done..|].
  apply (payload_bytes_ok password salt iv
           (size4 (length records) ++ blocks records)); try done.
  rewrite LSBFacts.bytes_ok_app. split; [apply bytes_ok_size4|].
  apply bytes_ok_blocks.
  apply (prepared_bytes_ok _ _ Hprep), read_inputs_bytes_ok, Hfiles.
Qed.

(** What [_extract_files] makes of the payload before the unpacking, with
    the password of the hiding, or with any password when there was none:
    the archive. *)
Lemma extract_files_try_payload password password' salt iv count rest combined :
  length salt = 16 -> length iv = 16 ->
  count < 2 ^ 24 ->
  payload password salt iv (size4 count ++ rest) combined ->
  truthy password' = truthy password \/ truthy password = None ->
  exists sigs,
    extract_files_try pbkdf2_hmac AES_new decrypt combined password'
    = (sigs, Ok (size4 count ++ rest)).
Proof.
  intros Hls Hli Hcount. unfold payload, extract_files_try.
  destruct (truthy password) as [pw|] eqn:Hpw.
  - intros Henc [Hsame|[=]].
    apply (encrypt_data_Ok pbkdf2_hmac AES_new encrypt decrypt decrypt_encrypt)
      in Henc as [(c & ct & _ & _ & Hlayout) Hdec]; [|done..].
    exists [Decrypting_data].
    rewrite bool_decide_eq_false_2 by (by rewrite Hlayout).
    assert (startswith combined ENCRYPTION_HEADER = true) as ->
      by (rewrite Hlayout; apply EnvelopeFacts.startswith_app).
    rewrite Hsame. unfold decrypt_or_incorrect. by rewrite Hdec.
  - intros -> _. exists [].
    rewrite bool_decide_eq_false_2 by done.
    by rewrite archive_not_encrypted.
Qed.

(** X14. What [_hide_files] hid, [_extract_files] writes out again: when a
    run of [_hide_files] on fewer than [2 ^ 24] files saved an image, the run
    of [_extract_files] on that image, with the same password (or with any
    password, or none, when the files were hidden without one), ends with
    the success signal, and it wrote one new file for each input file, in
    order, with the content of that file. *)
Theorem hide_then_extract_files px output_path output_dir file_paths
    password password' files now salt iv exist sigs saved :
  length (LSB.buf px) = LSB.shape0 px * LSB.shape1 px * 3 ->
  map_Forall (fun _ content => bytes_ok content = true) files ->
  length salt = 16 -> length iv = 16 ->
  bytes_ok salt = true -> bytes_ok iv = true ->
  length file_paths < 2 ^ 24 ->
  truthy password' = truthy password \/ truthy password = None ->
  _hide_files pbkdf2_hmac AES_new encrypt dumps basename px output_path
    file_paths password files now salt iv = (sigs, Some saved) ->
  exists sigs' st,
    _extract_files pbkdf2_hmac AES_new decrypt loads path_join splitext
      basename creatable saved output_dir password' exist = Some (sigs', st) /\
    Forall2 (fun out_path file_path => fs st !! out_path = files !! file_path)
            (extracted_files st) file_paths /\
    last sigs' = Some (unpack_signal
                   (finished_signal true
                      (String.concat newline (extracted_files st)))).
Proof.
  intros Hpx Hfiles Hls Hli Hsalt Hiv Hfew Hpw Hrun.
  apply hide_files_saved_extract in Hrun
    as (records & combined & Hprep & Hall & Hcount & Hfit & Hpay & Hhide);
    [|done..].
  pose proof (Forall2_length _ _ _ Hprep) as Hlen.
  rewrite read_inputs_length in Hlen.
  destruct (extract_files_try_payload password password' salt iv
              (length records) (blocks records) combined)
    as [sigs1 Htry]; [done|done|lia|done|done|].
  unfold _extract_files. rewrite Hhide. cbn [mbind option_bind].
  rewrite Htry.
  rewrite (unpack_prepared dumps loads path_join splitext basename creatable
             output_dir (read_inputs files now 0 file_paths)) by done.
  destruct (save_tuples_total path_join splitext basename creatable
              output_dir 0 (tuple_of <$> read_inputs files now 0 file_paths)
              (emit (status_signal (Found_hidden_files (length records)))
                 (mk_worker exist [] [])))
    as [st' Hst'].
  rewrite Hst'. cbn [fmap option_fmap option_map mbind option_bind].
  apply save_tuples_written in Hst' as (paths & Hpaths & Hwritten); [|done|].
  2: { apply Forall_fmap, Forall_forall. intros file _. unfold tuple_of.
       cbn [fst]. by eexists. }
  cbn [extracted_files emit app] in Hpaths.
  eexists _, (finish st'). split; [done|]. split.
  - cbn [finish emit extracted_files fs]. rewrite Hpaths.
    apply Forall2_fmap_r in Hwritten. clear -Hwritten Hall.
    revert Hwritten Hall. generalize 0. generalize paths.
    induction file_paths as [|p ps IH]; intros outs i Hwritten Hall.
    + inversion Hwritten. constructor.
    + cbn [read_inputs] in Hwritten.
      inversion Hwritten as [|out ? outs' ? Hout Hrest]; subst.
      apply Forall_cons in Hall as [[content Hp] Hall].
      constructor; [|by apply (IH outs' (S i))].
      cbn [tuple_of snd file_content] in Hout. by rewrite Hout, Hp.
  - rewrite app_comm_cons, last_app.
    cbn [finish emit signals extracted_files].
    by rewrite fmap_app, last_app.
Qed.


(** X16. The record that [prepare_file_data] builds for a file with a
    password is read back by [extract_file_data] with that password: the
    metadata of the file (its base name, the size of its content, the
    time) and its content. A record built without a password is read back
    with any password, as long as its metadata takes fewer than [2 ^ 24]
    bytes. *)
Theorem file_record_password_round_trip files timestamp salt iv file_path
    password password' content record :
  length salt = 16 -> length iv = 16 ->
  files !! file_path = Some content ->
  length (dumps (metadata_of (basename file_path) (length content) timestamp))
    < 2 ^ 24 ->
  truthy password' = truthy password \/ truthy password = None ->
  prepare_file_data_pw pbkdf2_hmac AES_new encrypt dumps basename
    files timestamp salt iv file_path password = Ok record ->
  extract_file_data_pw pbkdf2_hmac AES_new decrypt loads record password'
  = Ok (metadata_of (basename file_path) (length content) timestamp, content).
Proof.
  intros Hls Hli Hfile Hshort Hpw. unfold prepare_file_data_pw, read_file.
  rewrite Hfile. cbn [mbind result_bind].
  destruct (prepare_file_data _ _ _ _) as [plain|] eqn:Hplain; [|done].
  cbn [mbind result_bind]. intros Hrec.
  pose proof (extract_file_data_prepare dumps loads _ _ _ _
                (json_round_trip _ _ _) Hplain) as Hback.
  apply (prepare_file_data_Ok dumps) in Hplain as [_ Hlayout].
  unfold extract_file_data_pw.
  destruct (truthy password) as [pw|] eqn:Hpwd.
  - destruct Hpw as [->|[=]].
    apply (encrypt_data_Ok pbkdf2_hmac AES_new encrypt decrypt decrypt_encrypt)
      in Hrec as [(c & ct & _ & _ & Henv) Hdec]; [|done..].
    assert (startswith record ENCRYPTION_HEADER = true) as ->
      by (rewrite Henv; apply EnvelopeFacts.startswith_app).
    unfold decrypt_or_incorrect. rewrite Hdec. by cbn [mbind result_bind].
  - injection Hrec as <-.
    assert (startswith plain ENCRYPTION_HEADER = false) as Hstart
      by (rewrite Hlayout; apply archive_not_encrypted, Hshort).
    rewrite Hstart. by destruct (truthy password').
Qed.

End RunsFacts.

(** A stand-in for the library calls of the two runs, to run them on: the
    metadata is written as the bits of one number, each a byte; the cipher
    is that of [ToyCipher], the paths are those of [ToyWorker]. *)
Module ToyRuns.

Fixpoint pos_bits (p : positive) : bytes :=
  match p with
  | xH => []
  | xO q => 0%Z :: pos_bits q
  | xI q => 1%Z :: pos_bits q
  end.

Fixpoint bits_pos (bits : bytes) : positive :=
  match bits with
  | [] => xH
  | 0%Z :: bits' => xO (bits_pos bits')
  | _ :: bits' => xI (bits_pos bits')
  end.

Definition dumps (metadata : json) : bytes :=
  match metadata with
  | JDict [(_, JStr filename); (_, JInt size); (_, JStr timestamp)] =>
      pos_bits (encode (filename, size, timestamp))
  | _ => []
  end.

Definition loads (metadata_bytes : bytes) : result json :=
  match decode (bits_pos metadata_bytes) with
  | Some (filename, size, timestamp) =>
      Ok (JDict [("filename", JStr filename); ("size", JInt size);
                 ("timestamp", JStr timestamp)])
  | None => Raise JSONDecodeError
  end.

Lemma bits_pos_bits p : bits_pos (pos_bits p) = p.
Proof. induction p as [p IH|p IH|]; simpl; by rewrite ?IH. Qed.

Lemma pos_bits_ok p : bytes_ok (pos_bits p) = true.
Proof. induction p as [p IH|p IH|]; simpl; done. Qed.

Lemma loads_dumps_bits : loads_dumps dumps loads.
Proof.
  intros filename size timestamp. unfold metadata_of, dumps, loads.
  by rewrite bits_pos_bits, decode_encode.
Qed.

Lemma dumps_bytes metadata : bytes_ok (dumps metadata) = true.
Proof.
  unfold dumps. repeat case_match; try done. apply pos_bits_ok.
Qed.

Lemma bytes_ok_reverse m : bytes_ok m = true -> bytes_ok (reverse m) = true.
Proof.
  induction m as [|b m IH]; [done|]. rewrite reverse_cons.
  rewrite LSBFacts.bytes_ok_cons, LSBFacts.bytes_ok_app.
  intros [Hb Hm]. split; [by apply IH|]. by apply LSBFacts.bytes_ok_cons.
Qed.

Lemma crypt_bytes (c : ToyCipher.cipher) m ct :
  bytes_ok m = true -> ToyCipher.crypt c m = Ok ct -> bytes_ok ct = true.
Proof.
  intros Hm. unfold ToyCipher.crypt. destruct (_ =? _); [|done].
  intros [= <-]. by apply bytes_ok_reverse.
Qed.

(** Two files to hide, the time of the clock at each, and the two draws
    of random bytes. *)
Definition files : gmap string bytes :=
  <["a" := [1; 2; 3]%Z]> {["b" := [4; 5]%Z]}.

Definition now (i : nat) : string := pretty i.

Definition salt : bytes := replicate 16 5%Z.
Definition iv : bytes := replicate 16 9%Z.

Lemma files_bytes : map_Forall (fun _ content => bytes_ok content = true) files.
Proof.
  apply map_Forall_insert_2; [done|]. by apply map_Forall_singleton.
Qed.

(** The record of the file at [file_path], prepared at time [timestamp]. *)
Definition record_of (file_path timestamp : string) (content : bytes) : bytes :=
  let metadata_bytes :=
    dumps (metadata_of file_path (length content) timestamp) in
  size4 (length metadata_bytes) ++ metadata_bytes ++ content.

(** A white image of 20 by 20 pixels, which holds 150 bytes, and one of
    139 by 1, which holds 52. *)
Definition img_20x20 : LSB.ndarray :=
  LSB.mk_ndarray 20 20 (replicate 1200 255%Z).
Definition img_139x1 : LSB.ndarray :=
  LSB.mk_ndarray 1 139 (replicate 417 255%Z).

Lemma lt_pow24 n : n <= 1000 -> n < 2 ^ 24.
Proof.
  intros Hn. apply (Nat.le_lt_trans _ 1000); [done|].
  apply Nat2Z.inj_lt. by rewrite Nat2Z.inj_pow.
Qed.

End ToyRuns.

#[local] Abbreviation toy_hide :=
  (_hide_files ToyCipher.pbkdf2_hmac ToyCipher.AES_new ToyCipher.crypt
     ToyRuns.dumps ToyWorker.basename).
#[local] Abbreviation toy_extract :=
  (_extract_files ToyCipher.pbkdf2_hmac ToyCipher.AES_new ToyCipher.crypt
     ToyRuns.loads ToyWorker.path_join ToyWorker.splitext ToyWorker.basename
     ToyWorker.creatable).


Lemma hide_then_extract_files_witness :
  exists sigs saved,
    toy_hide ToyRuns.img_20x20 "out.png" ["a"; "b"] (Some "pw") ToyRuns.files
      ToyRuns.now ToyRuns.salt ToyRuns.iv = (sigs, Some saved) /\
    exists sigs' st,
      toy_extract saved "out" (Some "pw") {["out/a" := [7%Z]]}
      = Some (sigs', st) /\
      Forall2 (fun out_path file_path =>
                 fs st !! out_path = ToyRuns.files !! file_path)
              (extracted_files st) ["a"; "b"] /\
      last sigs' = Some (unpack_signal
                     (finished_signal true
                        (String.concat newline (extracted_files st)))).
Proof.
  eexists _, _. split; [vm_compute; reflexivity|].
  eapply (hide_then_extract_files ToyCipher.pbkdf2_hmac ToyCipher.AES_new
            ToyCipher.crypt ToyCipher.crypt ToyRuns.dumps ToyRuns.loads
            ToyWorker.path_join ToyWorker.splitext ToyWorker.basename
            ToyWorker.creatable ToyCipher.crypt_inverse ToyRuns.loads_dumps_bits
            ToyRuns.dumps_bytes ToyRuns.crypt_bytes (fun _ => eq_refl)
            ToyRuns.img_20x20 "out.png" "out" ["a"; "b"] (Some "pw")
            (Some "pw") ToyRuns.files ToyRuns.now ToyRuns.salt ToyRuns.iv).
  - reflexivity.
  - exact ToyRuns.files_bytes.
  - reflexivity.
  - reflexivity.
  - reflexivity.
  - reflexivity.
  - apply ToyRuns.lt_pow24. vm_compute. lia.
  - by left.
  - vm_compute. reflexivity.
Defined.



Lemma file_record_password_round_trip_witness :
  exists record,
    prepare_file_data_pw ToyCipher.pbkdf2_hmac ToyCipher.AES_new
      ToyCipher.crypt ToyRuns.dumps ToyWorker.basename ToyRuns.files "t0"
      ToyRuns.salt ToyRuns.iv "a" (Some "pw") = Ok record /\
    extract_file_data_pw ToyCipher.pbkdf2_hmac ToyCipher.AES_new
      ToyCipher.crypt ToyRuns.loads record (Some "pw")
    = Ok (metadata_of "a" 3 "t0", [1; 2; 3]%Z).
Proof.
  eexists. split; [vm_compute; reflexivity|].
  eapply (file_record_password_round_trip ToyCipher.pbkdf2_hmac
            ToyCipher.AES_new ToyCipher.crypt ToyCipher.crypt ToyRuns.dumps
            ToyRuns.loads ToyWorker.basename ToyCipher.crypt_inverse
            ToyRuns.loads_dumps_bits ToyRuns.files "t0" ToyRuns.salt ToyRuns.iv
            "a" (Some "pw") (Some "pw") [1; 2; 3]%Z).
  - reflexivity.
  - reflexivity.
  - reflexivity.
  - apply ToyRuns.lt_pow24. vm_compute. lia.
  - by left.
  - vm_compute. reflexivity.
Defined.

Lemma hide_files_missing_file_witness :
  toy_hide ToyRuns.img_20x20 "out.png" ["a"; "zz"; "b"] None ToyRuns.files
    ToyRuns.now ToyRuns.salt ToyRuns.iv
  = ([hide_status_signal (Preparing_file 1 3 "a");
      hide_status_signal (Preparing_file 2 3 "zz");
      hide_status_signal (Hide_error OSError);
      hide_finished_error OSError], None).
Proof.
  apply (hide_files_missing_file ToyCipher.pbkdf2_hmac ToyCipher.AES_new
           ToyCipher.crypt ToyRuns.dumps ToyWorker.basename ToyRuns.img_20x20
           "out.png" ["a"] "zz" ["b"] None ToyRuns.files ToyRuns.now
           ToyRuns.salt ToyRuns.iv [ToyRuns.record_of "a" "0" [1; 2; 3]%Z]).
  - repeat constructor. by eexists.
  - repeat constructor.
  - reflexivity.
Defined.

(** ** The history entry of an extraction *)

(** [s.split(sep)] for a separator of one character: the parts between the
    occurrences of the separator, one more than there are occurrences. *)
Fixpoint str_split (sep : Ascii.ascii) (s : string) : list string :=
  match s with
  | EmptyString => [EmptyString]
  | String a s' =>
      if Ascii.eqb a sep then EmptyString :: str_split sep s'
      else
        match str_split sep s' with
        | part :: parts => String a part :: parts
        | [] => [String a EmptyString]
        end
  end.

Definition newline_char : Ascii.ascii :=
  Ascii.Ascii false true false true false false false false.

(** [extract_operation_finished]: the arguments of its call of
    [add_to_history], for the text [image] of the image path field: the
    operation, the image, the files and the status. *)
Definition extract_operation_finished (image : string) (success : bool)
    (result : string) : string * string * list string * string :=
  if success
  then ("Extract", image, str_split newline_char result, "Success")
  else ("Extract", image, [], "Failed: " +:+ result).

(** No newline in a path. *)
Fixpoint one_line (s : string) : bool :=
  match s with
  | EmptyString => true
  | String a s' => negb (Ascii.eqb a newline_char) && one_line s'
  end.

Lemma str_split_one_line s : one_line s = true -> str_split newline_char s = [s].
Proof.
  induction s as [|a s IH]; [done|]. cbn [one_line str_split].
  destruct (Ascii.eqb a newline_char); [done|]. cbn [negb andb].
  intros Hs. by rewrite IH.
Qed.

Lemma str_split_app s rest :
  one_line s = true ->
  str_split newline_char (s +:+ newline +:+ rest)
  = s :: str_split newline_char rest.
Proof.
  induction s as [|a s IH]; [done|]. cbn [one_line].
  destruct (Ascii.eqb a newline_char) eqn:Ha; [done|]. cbn [negb andb].
  intros Hs. change (String a s +:+ newline +:+ rest)
    with (String a (s +:+ newline +:+ rest)).
  cbn [str_split]. by rewrite Ha, IH.
Qed.

Lemma str_split_concat path paths :
  Forall (fun p => one_line p = true) (path :: paths) ->
  str_split newline_char (String.concat newline (path :: paths))
  = path :: paths.
Proof.
  revert path. induction paths as [|q paths IH]; intros path Hall.
  - apply Forall_cons in Hall as [Hp _]. by apply str_split_one_line.
  - apply Forall_cons in Hall as [Hp Hall].
    change (String.concat newline (path :: q :: paths))
      with (path +:+ newline +:+ String.concat newline (q :: paths)).
    by rewrite str_split_app, IH.
Qed.

Section History.
Variable loads : bytes -> result json.
Variable path_join : string -> string -> string.
Variable splitext : string -> string * string.
Variable basename : string -> string.
Variable creatable : string -> bool.

(** X17. The files of the history entry of an extraction that reported
    success. The worker joins the paths it wrote with newlines and the
    window splits the text at the newlines again: when at least one file
    was written and no path has a newline in it, the entry lists the
    paths written, in order; when no file was written, the entry lists
    one file with an empty name, not none. *)
Theorem extract_history_files output_dir data image st st' :
  unpack_files loads path_join splitext basename creatable output_dir data st
    = Some st' ->
  exists result,
    last (signals st') = Some (finished_signal true result) /\
    let files := (extract_operation_finished image true result).1.2 in
    (extracted_files st' = [] -> files = [EmptyString]) /\
    (extracted_files st' <> [] ->
     Forall (fun p => one_line p = true) (extracted_files st') ->
     files = extracted_files st').
Proof.
  unfold unpack_files.
  destruct (unpack_loop _ _ _ _ _ _ _ _ _ _) as [st1|]; [|done].
  cbn [mbind option_bind]. intros [= <-].
  eexists. split; [cbn [signals emit]; by rewrite last_snoc|].
  cbn [extract_operation_finished fst snd extracted_files emit].
  split.
  - by intros ->.
  - destruct (extracted_files st1) as [|path paths]; [done|].
    intros _. apply str_split_concat.
Qed.

End History.

Lemma extract_history_files_witness :
  exists st',
    unpack_files ToyWorker.loads ToyWorker.path_join ToyWorker.splitext
      ToyWorker.basename ToyWorker.creatable "out"
      (size4 2 ++ blocks [ToyWorker.record_of ToyWorker.file_a;
                          ToyWorker.record_of ToyWorker.file_b])
      ToyWorker.st0 = Some st' /\
    exists result,
      last (signals st') = Some (finished_signal true result) /\
      let files := (extract_operation_finished "in.png" true result).1.2 in
      (extracted_files st' = [] -> files = [EmptyString]) /\
      (extracted_files st' <> [] ->
       Forall (fun p => one_line p = true) (extracted_files st') ->
       files = extracted_files st').
Proof.
  eexists. split; [vm_compute; reflexivity|].
  apply (extract_history_files ToyWorker.loads ToyWorker.path_join
           ToyWorker.splitext ToyWorker.basename ToyWorker.creatable "out"
           (size4 2 ++ blocks [ToyWorker.record_of ToyWorker.file_a;
                               ToyWorker.record_of ToyWorker.file_b])
           "in.png" ToyWorker.st0).
  vm_compute. reflexivity.
Defined.
